(** * themekit: the file manifest and the replace / upload commands

    A shallow embedding of
    - [cmd/file_manifest.go] (the [fileManifest] ledger: construction,
      reconciliation decisions, mutation),
    - [cmd/replace.go] and its older [commands/replace.go] form,
    - [cmd/upload.go],
    with the properties the specification states about them.

    Go maps are finite maps ([gmap]) keyed by strings; a Go [error] is a
    value of the inductive [error], [nil] being [None]; a method that
    mutates its receiver returns the receiver's new state next to its
    result.  The mutex of the manifest is not modelled: the methods are
    embedded as the atomic sections they are under the lock. *)

From Stdlib Require Import ZArith List Lia Bool.
From stdpp Require Import gmap strings list fin_maps.

Open Scope string_scope.
Open Scope list_scope.

(** Go's [error] values that the embedded code can tell apart: the two
    sentinels of the store, and any other error with its message. *)
Inductive error : Type :=
  | ErrorCollectionNotFound
  | ErrorKeyNotFound
  | Errorf (msg : string).

#[global] Instance error_eq_dec : EqDecision error.
Proof. solve_decision. Defined.

(** A nested Go map [map[string]map[string]string]. *)
Abbreviation nested := (gmap string (gmap string string)).

(** [m[filename][environment]] as Go evaluates it: the empty string when
    either key is missing. *)
Definition index2 (m : nested) (filename environment : string) : string :=
  match m !! filename with
  | Some envs => default "" (envs !! environment)
  | None => ""
  end.

(** The keys of a Go map as a [range] over it yields them.  Go leaves the
    order open; the loops below are embedded over the list of entries,
    and what is proved of them is stated on membership, not on the
    order. *)
Definition range_keys {V : Type} (m : gmap string V) : list string :=
  (map_to_list m).*1.

(** ** The durable version store *)

Module YStore.

(** Modelled from the spec: the package [cmd/ystore] is not part of the
    sources at hand.  The store is a nested map collection -> key ->
    value with a header comment.  [Read] answers with the value, or with
    [ErrorCollectionNotFound] / [ErrorKeyNotFound]; writes are staged in
    a batch and applied together by [Commit]; [Delete] removes one
    entry, [DeleteCollection] all entries of a collection; [Dump]
    returns the whole snapshot.  The errors the spec calls "any other
    store error" are modelled by [fault]: when the backing file is
    unusable every operation that touches it reports [Errorf] and
    leaves the contents as they were. *)
Record t : Type := mk {
  data : nested;
  comment : string;
  fault : option string
}.

(** Modelled from the spec: [Read(collection,key) -> (value,
    NotFound|KeyNotFound|ok)]. *)
Definition Read (s : t) (collection key : string) : string * option error :=
  match fault s with
  | Some msg => ("", Some (Errorf msg))
  | None =>
      match data s !! collection with
      | None => ("", Some ErrorCollectionNotFound)
      | Some col =>
          match col !! key with
          | None => ("", Some ErrorKeyNotFound)
          | Some v => (v, None)
          end
      end
  end.

(** Modelled from the spec: a batch is the sequence of staged entries,
    oldest first. *)
Definition Batch : Type := list (string * string * string).

Definition NewBatch : Batch := [].

(** Modelled from the spec: [Batch().Write(collection,key,value)] stages
    an entry. *)
Definition Write (b : Batch) (collection key value : string)
  : Batch * option error :=
  (b ++ [(collection, key, value)], None).

Definition put (d : nested) (w : string * string * string) : nested :=
  let '(collection, key, value) := w in
  <[collection := <[key := value]> (default ∅ (d !! collection))]> d.

Definition apply_batch (d : nested) (b : Batch) : nested := foldl put d b.

(** Modelled from the spec: [Commit()] atomically applies all staged
    writes; a failed commit leaves the prior state unchanged. *)
Definition Commit (s : t) (b : Batch) : t * option error :=
  match fault s with
  | Some msg => (s, Some (Errorf msg))
  | None => (mk (apply_batch (data s) b) (comment s) None, None)
  end.

(** Modelled from the spec: [Delete(collection,key)] removes one
    entry. *)
Definition Delete (s : t) (collection key : string) : t * option error :=
  match fault s with
  | Some msg => (s, Some (Errorf msg))
  | None =>
      (mk (match data s !! collection with
           | Some col => <[collection := delete key col]> (data s)
           | None => data s
           end) (comment s) None, None)
  end.

(** Modelled from the spec: [DeleteCollection(collection)] removes all
    entries for a file. *)
Definition DeleteCollection (s : t) (collection : string) : t * option error :=
  match fault s with
  | Some msg => (s, Some (Errorf msg))
  | None => (mk (delete collection (data s)) (comment s) None, None)
  end.

(** Modelled from the spec: [Dump()] returns the full nested snapshot. *)
Definition Dump (s : t) : nested * option error :=
  match fault s with
  | Some msg => (∅, Some (Errorf msg))
  | None => (data s, None)
  end.

(** Modelled from the spec: [SetComment(text)] stores a header
    annotation. *)
Definition SetComment (s : t) (text : string) : t * option error :=
  match fault s with
  | Some msg => (s, Some (Errorf msg))
  | None => (mk (data s) text None, None)
  end.

End YStore.

(** ** The manifest *)

Record fileManifest : Type := mkManifest {
  store : YStore.t;
  local : nested;
  remote : nested
}.

Definition with_store (m : fileManifest) (s : YStore.t) : fileManifest :=
  mkManifest s (local m) (remote m).
Definition with_local (m : fileManifest) (l : nested) : fileManifest :=
  mkManifest (store m) l (remote m).
Definition with_remote (m : fileManifest) (r : nested) : fileManifest :=
  mkManifest (store m) (local m) r.

(** [manifest.local, err = manifest.store.Dump(); return err]: the tail
    shared by [backfillLocal], [prune], [Set] and [Delete]. *)
Definition reload (m : fileManifest) : fileManifest * option error :=
  let '(snapshot, err) := YStore.Dump (store m) in
  (with_local m snapshot, err).

(** The body of the [for env, version := range manifest.remote[filename]]
    loop of [Set], over the entries in the order the range yields them. *)
Fixpoint Set_stage (s : YStore.t) (filename environment : string)
    (entries : list (string * string)) (batch : YStore.Batch)
  : YStore.Batch * option error :=
  match entries with
  | [] => (batch, None)
  | (env, version) :: rest =>
      let '(currentVersion, _) := YStore.Read s filename environment in
      if String.eqb currentVersion "" || String.eqb env environment then
        match YStore.Write batch filename env version with
        | (batch', None) => Set_stage s filename environment rest batch'
        | (batch', Some err) => (batch', Some err)
        end
      else Set_stage s filename environment rest batch
  end.

Definition Set_ (m : fileManifest) (filename environment value : string)
  : fileManifest * option error :=
  let remote1 :=
    match remote m !! filename with
    | Some _ => remote m
    | None => <[filename := ∅]> (remote m)
    end in
  let remote2 :=
    <[filename := <[environment := value]> (default ∅ (remote1 !! filename))]> remote1 in
  let m1 := with_remote m remote2 in
  let '(batch, err) :=
    Set_stage (store m1) filename environment
      (map_to_list (default ∅ (remote2 !! filename))) YStore.NewBatch in
  match err with
  | Some e => (m1, Some e)
  | None =>
      let '(s', err) := YStore.Commit (store m1) batch in
      match err with
      | Some e => (with_store m1 s', Some e)
      | None => reload (with_store m1 s')
      end
  end.

Definition Delete (m : fileManifest) (filename environment : string)
  : fileManifest * option error :=
  let '(s', err) := YStore.Delete (store m) filename environment in
  match err with
  | Some e => (with_store m s', Some e)
  | None =>
      let m1 := with_store m s' in
      let m2 :=
        match remote m1 !! filename with
        | Some envs => with_remote m1 (<[filename := delete environment envs]> (remote m1))
        | None => m1
        end in
      reload m2
  end.

Definition Get (m : fileManifest) (filename environment : string)
  : string * option error :=
  let '(version, err) := YStore.Read (store m) filename environment in
  match err with
  | Some e =>
      if bool_decide (e ≠ ErrorCollectionNotFound) && bool_decide (e ≠ ErrorKeyNotFound)
      then ("", Some e)
      else (version, None)
  | None => (version, None)
  end.

(** [for env, version := range remoteEnvs] of [backfillLocal]. *)
Fixpoint backfill_envs (localEnvs : gmap string string) (filename : string)
    (entries : list (string * string)) (batch : YStore.Batch)
  : YStore.Batch * option error :=
  match entries with
  | [] => (batch, None)
  | (env, version) :: rest =>
      match localEnvs !! env with
      | Some _ => backfill_envs localEnvs filename rest batch
      | None =>
          match YStore.Write batch filename env version with
          | (batch', None) => backfill_envs localEnvs filename rest batch'
          | (batch', Some err) => (batch', Some err)
          end
      end
  end.

(** [for filename, remoteEnvs := range manifest.remote] of
    [backfillLocal]. *)
Fixpoint backfill_files (local_ : nested)
    (files : list (string * gmap string string)) (batch : YStore.Batch)
  : YStore.Batch * option error :=
  match files with
  | [] => (batch, None)
  | (filename, remoteEnvs) :: rest =>
      match local_ !! filename with
      | Some localEnvs =>
          match backfill_envs localEnvs filename (map_to_list remoteEnvs) batch with
          | (batch', None) => backfill_files local_ rest batch'
          | (batch', Some err) => (batch', Some err)
          end
      | None => backfill_files local_ rest batch
      end
  end.

(** The batch of [backfillLocal] as it stands when the loops end. *)
Definition backfillLocal_staged (m : fileManifest) : YStore.Batch * option error :=
  backfill_files (local m) (map_to_list (remote m)) YStore.NewBatch.

Definition backfillLocal (m : fileManifest) : fileManifest * option error :=
  let '(batch, err) := backfillLocal_staged m in
  match err with
  | Some e => (m, Some e)
  | None =>
      let '(s', err) := YStore.Commit (store m) batch in
      match err with
      | Some e => (with_store m s', Some e)
      | None => reload (with_store m s')
      end
  end.

(** ** The clients *)

(** Modelled from the spec: the package [kit] is not part of the sources
    at hand.  An asset is identified by its [Key] and carries a version
    token ([UpdatedAt]) and its content. *)
Record Asset : Type := mkAsset {
  Key : string;
  Value : string;
  UpdatedAt : string
}.

#[global] Instance Asset_eq_dec : EqDecision Asset.
Proof. solve_decision. Defined.

(** Modelled from the spec: the fields of an environment's configuration
    that the embedded code reads. *)
Record Configuration : Type := mkConfig {
  Environment : string;
  Directory : string;
  ReadOnly : bool
}.

(** Modelled from the spec: what a [kit.ThemeClient] answers to the calls
    the embedded code makes: the remote listing, the local listing, the
    lookup of one local file, and the update of one remote asset (the
    answer being the host that served it). *)
Record ThemeClient : Type := mkClient {
  Config : Configuration;
  AssetList : list Asset * option error;
  LocalAssets : list Asset * option error;
  LocalAsset : string → Asset * option error;
  UpdateAsset : Asset → string * option error
}.

(** Modelled from the spec: [indexOf(len, predicate)], the linear scan
    that returns the first index below [len] at which [predicate] holds,
    and [-1] when there is none. *)
Fixpoint indexOf_from (i len : nat) (predicate : nat → bool) : Z :=
  match len with
  | O => (-1)%Z
  | S len' => if predicate i then Z.of_nat i else indexOf_from (S i) len' predicate
  end.

Definition indexOf (len : nat) (predicate : nat → bool) : Z :=
  indexOf_from 0 len predicate.

(** ** [prune] *)

Section PruneCode.

(** [os.Stat] of the file [filename] under [directory] succeeds and
    does not report a directory. *)
Variable file_on_disk : string → string → bool.

Variable clients : list ThemeClient.

(** [clients[i]] under [indexOf], which stays below [len(clients)]. *)
Definition has_file (filename : string) (i : nat) : bool :=
  match clients !! i with
  | Some client => file_on_disk (Directory (Config client)) filename
  | None => false
  end.

Definition is_environment (envname : string) (i : nat) : bool :=
  match clients !! i with
  | Some client => String.eqb (Environment (Config client)) envname
  | None => false
  end.

(** The first loop of [prune]: files that no longer exist. *)
Fixpoint prune_files (remote_ : nested)
    (files : list (string * gmap string string)) (s : YStore.t)
  : YStore.t * option error :=
  match files with
  | [] => (s, None)
  | (filename, _) :: rest =>
      match remote_ !! filename with
      | Some _ => prune_files remote_ rest s
      | None =>
          if (indexOf (length clients) (has_file filename) =? -1)%Z then
            match YStore.DeleteCollection s filename with
            | (s', None) => prune_files remote_ rest s'
            | (s', Some err) => (s', Some err)
            end
          else prune_files remote_ rest s
      end
  end.

(** [for envname := range envs] of the second loop. *)
Fixpoint prune_envs (filename : string) (envnames : list string) (s : YStore.t)
  : YStore.t * option error :=
  match envnames with
  | [] => (s, None)
  | envname :: rest =>
      if (indexOf (length clients) (is_environment envname) =? -1)%Z then
        match YStore.Delete s filename envname with
        | (s', None) => prune_envs filename rest s'
        | (s', Some err) => (s', Some err)
        end
      else prune_envs filename rest s
  end.

(** The second loop of [prune]: environments that no longer exist. *)
Fixpoint prune_environments (files : list (string * gmap string string))
    (s : YStore.t) : YStore.t * option error :=
  match files with
  | [] => (s, None)
  | (filename, envs) :: rest =>
      match prune_envs filename (range_keys envs) s with
      | (s', None) => prune_environments rest s'
      | (s', Some err) => (s', Some err)
      end
  end.

Definition prune (m : fileManifest) : fileManifest * option error :=
  match prune_files (remote m) (map_to_list (local m)) (store m) with
  | (s1, Some err) => (with_store m s1, Some err)
  | (s1, None) =>
      match prune_environments (map_to_list (local m)) s1 with
      | (s2, Some err) => (with_store m s2, Some err)
      | (s2, None) => reload (with_store m s2)
      end
  end.

End PruneCode.

(** ** Reconciliation decisions *)

(** A [time.Time] is the instant it denotes, counted in nanoseconds from
    Go's zero time (January 1, year 1, 00:00:00 UTC): [IsZero] is being
    that instant, [Before] the order of instants. *)
Definition Time : Type := Z.
Definition zeroTime : Time := 0%Z.
Definition IsZero (t : Time) : bool := (t =? 0)%Z.
Definition Before (t u : Time) : bool := (t <? u)%Z.

Section DecisionsCode.

(** [time.Parse(time.RFC3339, t)] of Go's library: the instant, or
    [None] where Go returns an error next to the zero time. *)
Variable time_Parse_RFC3339 : string → option Time.

Definition parseTime (t : string) : Time :=
  match time_Parse_RFC3339 t with
  | Some parsed => parsed
  | None => zeroTime
  end.

Definition diffDates (m : fileManifest) (filename dstEnv srcEnv : string)
  : Time * Time :=
  let local_ :=
    match local m !! filename with
    | Some _ => parseTime (index2 (local m) filename srcEnv)
    | None => zeroTime
    end in
  let remote_ :=
    match remote m !! filename with
    | Some _ => parseTime (index2 (remote m) filename dstEnv)
    | None => zeroTime
    end in
  (local_, remote_).

Definition NeedsDownloading (m : fileManifest) (filename environment : string) : bool :=
  let '(localTime, remoteTime) := diffDates m filename environment environment in
  Before localTime remoteTime || IsZero localTime.

Definition ShouldUpload (m : fileManifest) (filename environment : string) : bool :=
  let '(localTime, remoteTime) := diffDates m filename environment environment in
  Before remoteTime localTime || IsZero remoteTime || IsZero localTime.

Definition ShouldRemove (m : fileManifest) (filename environment : string) : bool :=
  let '(localTime, remoteTime) := diffDates m filename environment environment in
  Before remoteTime localTime || IsZero localTime.

(** The timestamp the specification attaches to a token: zero when the
    token is absent or does not parse. *)
Definition timestamp_of (token : option string) : Time :=
  match token with
  | Some t => default zeroTime (time_Parse_RFC3339 t)
  | None => zeroTime
  end.

End DecisionsCode.

(** ** [FetchableFiles] *)

(** [strings.Contains(s, substr)]. *)
Fixpoint strings_Contains (s substr : string) : bool :=
  if String.prefix substr s then true
  else match s with
       | EmptyString => false
       | String _ rest => strings_Contains rest substr
       end.

Section FetchableCode.

(** [filepath.Match(pattern, name)] of Go's library. *)
Variable filepath_Match : string → string → bool * option error.

(** The first loop of the second branch: wildcard patterns on one
    side, literal names appended to the result on the other. *)
Fixpoint sort_names (filenames wildCards fetchableFilenames : list string)
  : list string * list string :=
  match filenames with
  | [] => (wildCards, fetchableFilenames)
  | filename :: rest =>
      if strings_Contains filename "*"
      then sort_names rest (wildCards ++ [filename]) fetchableFilenames
      else sort_names rest wildCards (fetchableFilenames ++ [filename])
  end.

(** [for _, wildcard := range wildCards], for one asset name. *)
Fixpoint match_wildcards (wildCards : list string) (assetName : string)
    (fetchableFilenames : list string) : list string :=
  match wildCards with
  | [] => fetchableFilenames
  | wildcard :: rest =>
      let '(matched, _) := filepath_Match wildcard assetName in
      match_wildcards rest assetName
        (if matched then fetchableFilenames ++ [assetName] else fetchableFilenames)
  end.

(** [for assetName := range manifest.remote]. *)
Fixpoint match_assets (wildCards assetNames fetchableFilenames : list string)
  : list string :=
  match assetNames with
  | [] => fetchableFilenames
  | assetName :: rest =>
      match_assets wildCards rest
        (match_wildcards wildCards assetName fetchableFilenames)
  end.

Definition FetchableFiles (m : fileManifest) (filenames : list string) (env : string)
  : list string :=
  if (Z.of_nat (length filenames) <=? 0)%Z then
    foldl (λ fetchableFilenames assetName, fetchableFilenames ++ [assetName])
      [] (range_keys (remote m))
  else
    let '(wildCards, fetchableFilenames) := sort_names filenames [] [] in
    if (Z.of_nat (length wildCards) >? 0)%Z
    then match_assets wildCards (range_keys (remote m)) fetchableFilenames
    else fetchableFilenames.

End FetchableCode.

(** ** Asset events and the replace command *)

(** Modelled from the spec: the kinds of an [AssetEvent]. *)
Inductive EventType : Type := Create | Retrieve | Update | Remove.

#[global] Instance EventType_eq_dec : EqDecision EventType.
Proof. solve_decision. Defined.

(** Modelled from the spec: an [AssetEvent] is an asset and the kind of
    mutation intended for it; the target environment is the one of the
    client whose queue receives the event. *)
Record AssetEvent : Type := mkEvent {
  event_asset : Asset;
  event_type : EventType
}.

#[global] Instance AssetEvent_eq_dec : EqDecision AssetEvent.
Proof. solve_decision. Defined.

(** Modelled from the spec: a Removal event, and an Upload event, which
    is an update of the remote asset. *)
Definition NewRemovalEvent (asset : Asset) : AssetEvent := mkEvent asset Remove.
Definition NewUploadEvent (asset : Asset) : AssetEvent := mkEvent asset Update.

(** The values of a Go map as a [range] over it yields them. *)
Definition range_values {V : Type} (m : gmap string V) : list V :=
  (map_to_list m).*2.

Section ReplaceCode.

(** [asset.IsValid()] of the package [kit]. *)
Variable IsValid : Asset → bool.

(** [for _, filename := range filenames] of the selective branch of
    [replace]. *)
Fixpoint replace_named (client : ThemeClient) (filenames : list string)
    (assetsActions : gmap string AssetEvent)
  : gmap string AssetEvent * option error :=
  match filenames with
  | [] => (assetsActions, None)
  | filename :: rest =>
      let '(asset, err) := LocalAsset client filename in
      match err with
      | Some e => (assetsActions, Some e)
      | None =>
          if IsValid asset
          then replace_named client rest
                 (<[Key asset := NewUploadEvent asset]> assetsActions)
          else replace_named client rest assetsActions
      end
  end.

(** [replace] of [cmd/replace.go]: the events sent on the job queue, in
    the order they are sent, and the error returned.  The queue is
    closed on every path. *)
Definition replace (client : ThemeClient) (filenames : list string)
  : list AssetEvent * option error :=
  let assetsActions : gmap string AssetEvent := ∅ in
  if (Z.of_nat (length filenames) =? 0)%Z then
    let '(assets, err) := AssetList client in
    match err with
    | Some e => ([], Some e)
    | None =>
        let assetsActions :=
          foldl (λ actions asset, <[Key asset := NewRemovalEvent asset]> actions)
            assetsActions assets in
        let '(localAssets, err) := LocalAssets client in
        match err with
        | Some e => ([], Some e)
        | None =>
            let assetsActions :=
              foldl (λ actions asset, <[Key asset := NewUploadEvent asset]> actions)
                assetsActions localAssets in
            (range_values assetsActions, None)
        end
    end
  else
    match replace_named client filenames assetsActions with
    | (_, Some e) => ([], Some e)
    | (assetsActions, None) => (range_values assetsActions, None)
    end.

End ReplaceCode.

(** [removeAndUpload] of [commands/replace.go]: the events sent on
    [assetEvents] while the channel [assets] delivers the given assets
    and is then closed. *)
Fixpoint removeAndUpload (assets : list Asset) (assetEvents : list AssetEvent)
  : list AssetEvent :=
  match assets with
  | [] => assetEvents
  | asset :: more =>
      removeAndUpload more
        (assetEvents ++ [NewRemovalEvent asset; NewUploadEvent asset])
  end.

(** ** The upload command *)

(** An argument of a formatted log line. *)
Inductive logged : Type :=
  | Str (s : string)
  | Err (e : error).

(** What a run of the upload command does to the world, in program
    order: console and log lines, the wait group, the call that changes a
    remote asset, and the goroutines it starts, each with the effects of
    its body.  The colours of [kit.GreenText] and [kit.YellowText] are not
    recorded. *)
#[warnings="-register-all"]
Inductive effect : Type :=
  | Println (line : list string)
  | LogError (e : error)
  | LogErrorf (format : string) (args : list logged)
  | Printf (format : string) (args : list logged)
  | WaitGroupAdd (delta : Z)
  | WaitGroupDone
  | CallUpdateAsset (asset : Asset)
  | Go (body : list effect).

Definition settingsDataKey : string := "config/settings_data.json".

Definition performUpload (client : ThemeClient) (asset : Asset) : list effect :=
  let '(resp_Host, err) := UpdateAsset client asset in
  [CallUpdateAsset asset]
  ++ match err with
     | Some e =>
         [LogErrorf "[%s]%s" [Str (Environment (Config client)); Err e]]
     | None =>
         [Printf "[%s] Successfully performed Update on file %s from %s"
            [Str (Environment (Config client)); Str (Key asset); Str resp_Host]]
     end
  ++ [WaitGroupDone].

(** [for _, filename := range filenames] of [upload]: the assets
    collected, or the error that ends the run. *)
Fixpoint upload_named (client : ThemeClient) (filenames : list string)
    (localAssets : list Asset) : list Asset * option error :=
  match filenames with
  | [] => (localAssets, None)
  | filename :: rest =>
      let '(asset, err) := LocalAsset client filename in
      match err with
      | Some e => (localAssets, Some e)
      | None => upload_named client rest (localAssets ++ [asset])
      end
  end.

(** [for _, asset := range localAssets] of [upload]. *)
Fixpoint upload_dispatch (client : ThemeClient) (localAssets : list Asset)
  : list effect :=
  match localAssets with
  | [] => []
  | asset :: rest =>
      if String.eqb (Key asset) settingsDataKey
      then upload_dispatch client rest
      else WaitGroupAdd 1 :: Go (performUpload client asset)
             :: upload_dispatch client rest
  end.

(** [upload]; the deferred [wg.Done()] ends every path. *)
Definition upload (client : ThemeClient) (filenames : list string) : list effect :=
  [Println filenames]
  ++ (if ReadOnly (Config client) then
        [LogErrorf "[%s]environment is reaonly" [Str (Environment (Config client))]]
      else
        let '(localAssets, err) :=
          if (Z.of_nat (length filenames) =? 0)%Z
          then LocalAssets client
          else upload_named client filenames [] in
        match err with
        | Some e => [LogError e]
        | None => upload_dispatch client localAssets
        end)
  ++ [WaitGroupDone].

(** The closure [doupload] of [uploadSettingsData]. *)
Definition doupload (client : ThemeClient) : list effect :=
  let '(asset, err) := LocalAsset client settingsDataKey in
  match err with
  | Some e => [LogError e]
  | None => [WaitGroupAdd 1; Go (performUpload client asset)]
  end.

(** [for _, filename := range filenames] of [uploadSettingsData]. *)
Fixpoint uploadSettingsData_named (client : ThemeClient) (filenames : list string)
  : list effect :=
  match filenames with
  | [] => []
  | filename :: rest =>
      if String.eqb filename settingsDataKey
      then doupload client
      else uploadSettingsData_named client rest
  end.

Definition uploadSettingsData (client : ThemeClient) (filenames : list string)
  : list effect :=
  if ReadOnly (Config client) then []
  else if (Z.of_nat (length filenames) =? 0)%Z then doupload client
  else uploadSettingsData_named client filenames.

(** ** [generateRemote] *)

(** The goroutine that [generateRemote] starts for one client: its
    listing has not answered yet; it is merging what is left of the
    listing into [remote], one asset per critical section; it has
    returned, with its error. *)
Inductive query : Type :=
  | Launched
  | Merging (assets : list Asset)
  | Returned (err : option error).

Definition is_returned (q : query) : bool :=
  match q with Returned _ => true | _ => false end.

(** The [errgroup.Group] of [generateRemote] with the map its goroutines
    share: the state of each goroutine, by the index of its client;
    [manifest.remote]; the error the group retains, which is the first
    one a goroutine returns; and the indices of the goroutines that have
    returned, in the order they did. *)
Record group : Type := mkGroup {
  queries : list query;
  remote_map : nested;
  first_error : option error;
  finished : list nat
}.

(** [if _, ok := m[filename]; !ok { m[filename] = make(...) };
    m[filename][environment] = value]. *)
Definition assign2 (m : nested) (filename environment value : string) : nested :=
  let m1 :=
    match m !! filename with
    | Some _ => m
    | None => <[filename := ∅]> m
    end in
  <[filename := <[environment := value]> (default ∅ (m1 !! filename))]> m1.

(** One atomic step of the goroutine of client [i]: the answer of
    [client.AssetList()] with the return it causes when it is an error,
    one locked update of [remote], or the return after the last asset.
    A goroutine that has returned takes no step. *)
Definition query_step (clients : list ThemeClient) (i : nat) (g : group)
  : option group :=
  match clients !! i, queries g !! i with
  | Some client, Some Launched =>
      let '(assets, err) := AssetList client in
      match err with
      | Some e =>
          Some (mkGroup (<[i := Returned (Some e)]> (queries g)) (remote_map g)
                  (match first_error g with
                   | None => Some e
                   | Some e0 => Some e0
                   end)
                  (finished g ++ [i]))
      | None =>
          Some (mkGroup (<[i := Merging assets]> (queries g)) (remote_map g)
                  (first_error g) (finished g))
      end
  | Some client, Some (Merging (asset :: rest)) =>
      Some (mkGroup (<[i := Merging rest]> (queries g))
              (assign2 (remote_map g) (Key asset)
                 (Environment (Config client)) (UpdatedAt asset))
              (first_error g) (finished g))
  | Some client, Some (Merging []) =>
      Some (mkGroup (<[i := Returned None]> (queries g)) (remote_map g)
              (first_error g) (finished g ++ [i]))
  | _, _ => None
  end.

(** The group after the goroutines have taken their steps in the order
    of [schedule]; an entry that names a goroutine with no step left is
    passed over. *)
Definition run (clients : list ThemeClient) (schedule : list nat) (g : group) : group :=
  foldl (λ g i, default g (query_step clients i g)) g schedule.

(** [manifest.remote = make(...)], one [requestGroup.Go] per client. *)
Definition launch (clients : list ThemeClient) : group :=
  mkGroup (replicate (length clients) Launched) ∅ None [].

(** [generateRemote] under a schedule of its goroutines:
    [requestGroup.Wait()] returns once every goroutine has returned, with
    the error the group retains; under a schedule that leaves a goroutine
    unfinished it has not returned yet. *)
Definition generateRemote (clients : list ThemeClient) (schedule : list nat)
    (m : fileManifest) : option (fileManifest * option error) :=
  let g := run clients schedule (launch clients) in
  if forallb is_returned (queries g)
  then Some (with_remote m (remote_map g), first_error g)
  else None.

(** The order in which the goroutines return under a schedule. *)
Definition completion_order (clients : list ThemeClient) (schedule : list nat)
  : list nat :=
  finished (run clients schedule (launch clients)).

(** ** Vocabulary of the properties *)

(** The content of one cell of a nested map. *)
Definition cell (d : nested) (filename environment : string) : option string :=
  d !! filename ≫= (.!! environment).

Section PruneVocabulary.

Variable file_on_disk : string → string → bool.
Variable clients : list ThemeClient.

(** A configured environment has the file on its disk. *)
Definition on_some_disk (filename : string) : Prop :=
  ∃ client, client ∈ clients
            ∧ file_on_disk (Directory (Config client)) filename = true.

(** The environment is among the configured ones. *)
Definition configured (envname : string) : Prop :=
  ∃ client, client ∈ clients ∧ Environment (Config client) = envname.

End PruneVocabulary.

(** The key under which an event is filed. *)
Definition event_key (ev : AssetEvent) : string := Key (event_asset ev).

(** Every event of an action map is filed under its asset's key. *)
Definition keyed (actions : gmap string AssetEvent) : Prop :=
  ∀ k ev, actions !! k = Some ev → event_key ev = k.

Section ReplaceVocabulary.

Variable IsValid : Asset → bool.
Variable client : ThemeClient.

(** The asset a filename resolves to is read without error and is
    valid. *)
Definition resolves (filename : string) : Prop :=
  (LocalAsset client filename).2 = None
  ∧ IsValid (LocalAsset client filename).1 = true.

End ReplaceVocabulary.

(** The remote assets a run changes: the calls of [UpdateAsset] it
    makes, in the goroutines it starts as well. *)
Fixpoint mutations (e : effect) : list Asset :=
  match e with
  | CallUpdateAsset asset => [asset]
  | Go body => concat (map mutations body)
  | _ => []
  end.

Definition mutations_of (trace : list effect) : list Asset :=
  concat (map mutations trace).

(** The error of the listing of the client of index [i]. *)
Definition listing_error (clients : list ThemeClient) (i : nat) : option error :=
  clients !! i ≫= λ client, (AssetList client).2.

(** The remote reports [asset] for [client]'s environment in [remote_]. *)
Definition reported (remote_ : nested) (client : ThemeClient) (asset : Asset) : Prop :=
  is_Some (cell remote_ (Key asset) (Environment (Config client))).

(** What holds of the group of [generateRemote] at every moment. *)
Record group_inv (clients : list ThemeClient) (g : group) : Prop := mkInv {
  inv_length : length (queries g) = length clients;
  inv_error :
    first_error g = head (omap (listing_error clients) (finished g));
  inv_finished :
    ∀ i, i ∈ finished g ↔ ∃ err, queries g !! i = Some (Returned err);
  inv_once : NoDup (finished g);
  inv_merging :
    ∀ i client rest,
      clients !! i = Some client → queries g !! i = Some (Merging rest) →
      (AssetList client).2 = None
      ∧ ∃ merged, (AssetList client).1 = merged ++ rest
                  ∧ ∀ a, a ∈ merged → reported (remote_map g) client a;
  inv_returned :
    ∀ i client err,
      clients !! i = Some client → queries g !! i = Some (Returned err) →
      err = (AssetList client).2
      ∧ (err = None → ∀ a, a ∈ (AssetList client).1 →
                          reported (remote_map g) client a);
  inv_source :
    ∀ k e v, cell (remote_map g) k e = Some v →
      ∃ client a, client ∈ clients ∧ (AssetList client).2 = None
                  ∧ a ∈ (AssetList client).1
                  ∧ Environment (Config client) = e
                  ∧ Key a = k ∧ UpdatedAt a = v
}.

(** ** Data for the examples *)

Definition demo_store : YStore.t :=
  YStore.mk {[ "a.liquid" := {[ "dev" := "2021-01-01T00:00:00Z" ]} ]} "" None.
Definition demo : fileManifest :=
  mkManifest demo_store (YStore.data demo_store) ∅.

Definition broken_store : YStore.t :=
  YStore.mk (YStore.data demo_store) "" (Some "theme.lock: permission denied").

(** A parser for the examples: it knows two timestamps, by their distance
    in seconds from the zero time. *)
Definition two_stamps (t : string) : option Time :=
  if String.eqb t "2021-01-01T00:00:00Z" then Some (63745056000 * 1000000000)%Z
  else if String.eqb t "2021-06-01T00:00:00Z" then Some (63758102400 * 1000000000)%Z
  else None.

Definition stale : fileManifest :=
  mkManifest demo_store (YStore.data demo_store)
    {[ "a.liquid" := {[ "dev" := "2021-06-01T00:00:00Z" ]} ]}.

Definition first_run : fileManifest :=
  mkManifest demo_store (YStore.data demo_store)
    {[ "a.liquid" := {[ "dev" := "2021-06-01T00:00:00Z";
                        "prod" := "2021-06-01T00:00:00Z" ]};
       "new.liquid" := {[ "dev" := "2021-06-01T00:00:00Z" ]} ]}.

Definition dev_client : ThemeClient :=
  mkClient (mkConfig "dev" "/themes/dev" false)
    ([], None) ([], None)
    (λ filename, (mkAsset filename "" "", None))
    (λ _, ("shop.myshopify.com", None)).

Definition two_envs_store : YStore.t :=
  YStore.mk {[ "a.liquid" := {[ "dev" := "2021-01-01T00:00:00Z";
                                "staging" := "2021-01-01T00:00:00Z" ]};
               "gone.liquid" := {[ "dev" := "2021-01-01T00:00:00Z" ]} ]} "" None.

(** A ledger with an entry for an environment that is no longer
    configured, and one for a file that exists nowhere any more. *)
Definition two_envs : fileManifest :=
  mkManifest two_envs_store (YStore.data two_envs_store)
    {[ "a.liquid" := {[ "dev" := "2021-06-01T00:00:00Z" ]} ]}.

Definition empty_disk (directory filename : string) : bool := false.

Definition has_content (asset : Asset) : bool := negb (String.eqb (Value asset) "").

(** A client whose remote holds [a] and [b] and whose disk holds [b] and
    [c]; [missing.liquid] cannot be read and [empty.liquid] is empty. *)
Definition ab_bc_client : ThemeClient :=
  mkClient (mkConfig "dev" "/themes/dev" false)
    ([mkAsset "a" "" "2021-01-01T00:00:00Z"; mkAsset "b" "" "2021-01-01T00:00:00Z"], None)
    ([mkAsset "b" "<b>" ""; mkAsset "c" "<c>" ""], None)
    (λ filename,
       if String.eqb filename "missing.liquid"
       then (mkAsset "" "" "", Some (Errorf "open missing.liquid: no such file"))
       else if String.eqb filename "empty.liquid"
       then (mkAsset filename "" "", None)
       else (mkAsset filename "<content>" "", None))
    (λ _, ("shop.myshopify.com", None)).

Definition readonly_client : ThemeClient :=
  mkClient (mkConfig "production" "/themes/prod" true)
    (AssetList ab_bc_client) (LocalAssets ab_bc_client)
    (LocalAsset ab_bc_client) (UpdateAsset ab_bc_client).

(** A client whose remote listing fails. *)
Definition failing_client : ThemeClient :=
  mkClient (mkConfig "staging" "/themes/staging" false)
    ([], Some (Errorf "listing: connection refused")) ([], None)
    (LocalAsset ab_bc_client) (UpdateAsset ab_bc_client).

(** ** [Should], [Diff] and [newFileManifest] *)

Section ShouldCode.

Variable time_Parse_RFC3339 : string → option Time.


End ShouldCode.

(** Modelled from the spec: a [themeDiff] holds three sequences of
    descriptions, and [newDiff] gives the one with none. *)
Record themeDiff : Type := mkDiff {
  Created : list string;
  Updated : list string;
  Removed : list string
}.

Definition newDiff : themeDiff := mkDiff [] [] [].

Section DiffCode.

Variable time_Parse_RFC3339 : string → option Time.

(** [fmtTime], which brackets what [t.Format("Jan 2 3:04PM 2006")] of
    Go's library prints. *)
Variable fmtTime : Time → string.

(** The colouring of a line by [red], [green] and [yellow]. *)
Variables red green yellow : string → string.

(** The type [assetAction] of the command, of which [Diff] reads the
    field [event]. *)
Variable assetAction : Type.
Variable event : assetAction → EventType.

(** The body of [for filename, action := range actions]. *)
Definition Diff_step (m : fileManifest) (dstEnv srcEnv : string)
    (diff : themeDiff) (entry : string * assetAction) : themeDiff :=
  let '(filename, action) := entry in
  let '(local_, remote_) := diffDates time_Parse_RFC3339 m filename dstEnv srcEnv in
  let diff :=
    if negb (IsZero local_) && IsZero remote_
    then mkDiff (Created diff) (Updated diff)
           (Removed diff ++ [red (filename ++ " " ++ fmtTime local_)%string])
    else diff in
  let diff :=
    if IsZero local_ && negb (IsZero remote_) && bool_decide (event action = Remove)
    then mkDiff (Created diff ++ [green (filename ++ " " ++ fmtTime remote_)%string])
           (Updated diff) (Removed diff)
    else diff in
  let diff :=
    if negb (IsZero local_) && Before local_ remote_
    then mkDiff (Created diff)
           (Updated diff
            ++ [yellow (filename ++ " local:" ++ fmtTime local_
                        ++ " remote:" ++ fmtTime remote_)%string])
           (Removed diff)
    else diff in
  diff.

Definition Diff (m : fileManifest) (actions : gmap string assetAction)
    (dstEnv srcEnv : string) : themeDiff :=
  foldl (Diff_step m dstEnv srcEnv) newDiff (map_to_list actions).

End DiffCode.

Definition storeName : string := "theme.lock".
Definition manifestComment : string :=
  "THIS IS AN AUTOGENERATED FILE. DO NOT EDIT THIS FILE DIRECTLY.".

Section NewFileManifestCode.

(** [ystore.New(file)]: the store behind the file, or the error of
    opening it. *)
Variable ystore_New : string → YStore.t * option error.

(** [filepath.Join] of Go's library. *)
Variable filepath_Join : string → string → string.

Variable file_on_disk : string → string → bool.

(** [newFileManifest] under a schedule of the goroutines of
    [generateRemote]; it has not returned yet when the schedule leaves
    one of them unfinished.  The manifest returned is [None] for
    [nil]. *)
Definition newFileManifest (path : string) (clients : list ThemeClient)
    (schedule : list nat) : option (option fileManifest * option error) :=
  let '(store0, err) := ystore_New (filepath_Join path storeName) in
  match err with
  | Some e => Some (None, Some e)
  | None =>
      let '(store1, err) := YStore.SetComment store0 manifestComment in
      match err with
      | Some e => Some (None, Some e)
      | None =>
          let manifest := mkManifest store1 ∅ ∅ in
          let '(manifest, err) := reload manifest in
          match err with
          | Some e => Some (None, Some e)
          | None =>
              match generateRemote clients schedule manifest with
              | None => None
              | Some (manifest, Some e) => Some (None, Some e)
              | Some (manifest, None) =>
                  let '(manifest, err) := backfillLocal manifest in
                  match err with
                  | Some e => Some (None, Some e)
                  | None =>
                      let '(manifest, err) := prune file_on_disk clients manifest in
                      Some (Some manifest, err)
                  end
              end
          end
      end
  end.

End NewFileManifestCode.

(** ** The older replace command *)

(** [for _, filename := range filenames] of the goroutine of
    [assetList]: the assets sent on the channel before it is closed. *)
Fixpoint assetList_named (filenames : list string) (assets : list Asset)
  : list Asset :=
  match filenames with
  | [] => assets
  | filename :: rest => assetList_named rest (assets ++ [mkAsset filename "" ""])
  end.

(** [assetList] of [commands/replace.go]: what the channel it returns
    delivers, [listing] being what the channel of [client.AssetList()]
    delivers. *)
Definition assetList (listing : list Asset) (filenames : list string) : list Asset :=
  if (Z.of_nat (length filenames) =? 0)%Z then listing
  else assetList_named filenames [].

(** [Replace] of [commands/replace.go]: the events it has sent to
    [client.Process] when the channel [done] is returned to the caller
    and the goroutine of [removeAndUpload] has ended. *)
Definition Replace (listing : list Asset) (filenames : list string)
  : list AssetEvent :=
  removeAndUpload (assetList listing filenames) [].

(** ** The configuration of an environment *)

(** [strings.HasSuffix(s, suffix)]. *)
Definition strings_HasSuffix (s suffix : string) : bool :=
  (String.length suffix <=? String.length s)%nat
  && String.eqb
       (String.substring (String.length s - String.length suffix)
          (String.length suffix) s)
       suffix.

(** [strings.Join(elems, sep)]. *)
Fixpoint strings_Join (elems : list string) (sep : string) : string :=
  match elems with
  | [] => ""
  | [elem] => elem
  | elem :: rest => (elem ++ sep ++ strings_Join rest sep)%string
  end.

Module env.

(** [Env], the configuration of an environment. *)
Record Env : Type := mkEnv {
  Name : string;
  Password : string;
  ThemeID : string;
  Domain : string;
  Directory : string;
  IgnoredFiles : list string;
  Proxy : string;
  Ignores : list string;
  Timeout : Z;
  ReadOnly : bool;
  Notify : string
}.

Definition with_ThemeID (e : Env) (themeID : string) : Env :=
  mkEnv (Name e) (Password e) themeID (Domain e) (Directory e) (IgnoredFiles e)
    (Proxy e) (Ignores e) (Timeout e) (ReadOnly e) (Notify e).

Definition with_Directory (e : Env) (directory : string) : Env :=
  mkEnv (Name e) (Password e) (ThemeID e) (Domain e) directory (IgnoredFiles e)
    (Proxy e) (Ignores e) (Timeout e) (ReadOnly e) (Notify e).

(** What [validate] reads of the [os.FileInfo] that [os.Stat] returns:
    whether the mode has [os.ModeSymlink] set, and whether it is that of
    a directory. *)
Record FileInfo : Type := mkFileInfo {
  ModeSymlink : bool;
  IsDir : bool
}.

Section ValidateCode.

(** [strings.ToLower], [strings.TrimSpace] and
    [strconv.ParseInt(s, 10, 64)] of Go's library. *)
Variable strings_ToLower : string → string.
Variable strings_TrimSpace : string → string.
Variable strconv_ParseInt : string → Z * option error.

(** [os.Stat], [filepath.Clean] and [filepath.EvalSymlinks] of Go's
    library. *)
Variable os_Stat : string → FileInfo * option error.
Variable filepath_Clean : string → string.
Variable filepath_EvalSymlinks : string → string * option error.

(** The text of an error, as [%v] and [%s] print it. *)
Variable error_text : error → string.

(** The body of [validate] up to the last test: the environment as the
    checks leave it, and the causes collected in [errors]. *)
Definition validate_checks (e : Env) : Env * list string :=
  let errors : list string := [] in
  let e := with_ThemeID e (strings_ToLower (strings_TrimSpace (ThemeID e))) in
  let '(e, errors) :=
    if negb (String.eqb (ThemeID e) "") then
      if String.eqb (ThemeID e) "live" then (with_ThemeID e "", errors)
      else match (strconv_ParseInt (ThemeID e)).2 with
           | Some _ => (e, errors ++ ["invalid theme_id"])
           | None => (e, errors)
           end
    else (e, errors) in
  let errors :=
    if (String.length (Domain e) =? 0)%nat
    then errors ++ ["missing store domain"]
    else if negb (strings_HasSuffix (Domain e) "myshopify.com")
    then errors ++ ["invalid store domain must end in '.myshopify.com'"]
    else errors in
  let errors :=
    if (String.length (Password e) =? 0)%nat
    then errors ++ ["missing password"]
    else errors in
  let '(fi, err) := os_Stat (filepath_Clean (Directory e)) in
  match err with
  | Some err =>
      (e, errors ++ [("invalid project directory " ++ error_text err)%string])
  | None =>
      if ModeSymlink fi then
        let '(directory, symlinkErr) :=
          filepath_EvalSymlinks (filepath_Clean (Directory e)) in
        let e := with_Directory e directory in
        match symlinkErr with
        | Some symlinkErr =>
            (e, errors
                ++ [("invalid project directory: " ++ error_text symlinkErr)%string])
        | None => (e, errors)
        end
      else if negb (IsDir fi) then
        (e, errors ++ ["Directory config <nil> is not a directory"])
      else (e, errors)
  end.

(** [validate]: the environment it leaves, and the error it returns. *)
Definition validate (e : Env) : Env * option error :=
  let '(e, errors) := validate_checks e in
  if (0 <? length errors)%nat
  then (e, Some (Errorf ("invalid environment [" ++ Name e ++ "]: ("
                         ++ strings_Join errors "," ++ ")")%string))
  else (e, None).

End ValidateCode.

End env.

(** ** Vocabulary of the further properties *)

(** [local] is the snapshot of a usable store: what the write-through of
    the manifest maintains. *)
Definition mirrors (m : fileManifest) : Prop :=
  YStore.fault (store m) = None ∧ local m = YStore.data (store m).

Section DiffVocabulary.

Variable time_Parse_RFC3339 : string → option Time.
Variable fmtTime : Time → string.
Variables red green yellow : string → string.
Variable assetAction : Type.
Variable event : assetAction → EventType.

(** The lines one entry of the actions adds to each sequence of a
    diff. *)
Definition removed_of (m : fileManifest) (dstEnv srcEnv : string)
    (entry : string * assetAction) : list string :=
  let '(local_, remote_) := diffDates time_Parse_RFC3339 m entry.1 dstEnv srcEnv in
  if negb (IsZero local_) && IsZero remote_
  then [red (entry.1 ++ " " ++ fmtTime local_)%string] else [].

Definition created_of (m : fileManifest) (dstEnv srcEnv : string)
    (entry : string * assetAction) : list string :=
  let '(local_, remote_) := diffDates time_Parse_RFC3339 m entry.1 dstEnv srcEnv in
  if IsZero local_ && negb (IsZero remote_) && bool_decide (event entry.2 = Remove)
  then [green (entry.1 ++ " " ++ fmtTime remote_)%string] else [].

Definition updated_of (m : fileManifest) (dstEnv srcEnv : string)
    (entry : string * assetAction) : list string :=
  let '(local_, remote_) := diffDates time_Parse_RFC3339 m entry.1 dstEnv srcEnv in
  if negb (IsZero local_) && Before local_ remote_
  then [yellow (entry.1 ++ " local:" ++ fmtTime local_
                ++ " remote:" ++ fmtTime remote_)%string] else [].

End DiffVocabulary.

(** What a run adds to the counter of the wait group, in the goroutines
    it starts as well. *)
Fixpoint wait_group_delta (e : effect) : Z :=
  match e with
  | WaitGroupAdd delta => delta
  | WaitGroupDone => (-1)%Z
  | Go body => foldr (λ e total, wait_group_delta e + total)%Z 0%Z body
  | _ => 0%Z
  end.

Definition wait_group_total (trace : list effect) : Z :=
  foldr (λ e total, wait_group_delta e + total)%Z 0%Z trace.

(** ** Data for the further examples *)

(** An environment whose store domain ends in [myshopify.com] with no
    dot before it. *)
Definition undotted_env : env.Env :=
  env.mkEnv "development" "secret" " Live " "shopmyshopify.com" "/themes/dev"
    [] "" [] 30 false "".

(** * Properties *)

(** ** Properties of the store model *)

Section StoreFacts.

Lemma apply_batch_snoc (d : nested) (b : YStore.Batch) w :
  YStore.apply_batch d (b ++ [w]) = YStore.put (YStore.apply_batch d b) w.
Proof. unfold YStore.apply_batch. by rewrite foldl_app. Qed.

Lemma index2_put_eq (d : nested) c k v :
  YStore.put d (c, k, v) !! c ≫= (.!! k) = Some v.
Proof. cbn. rewrite lookup_insert_eq. cbn. by rewrite lookup_insert_eq. Qed.

Lemma index2_put_ne (d : nested) c k v c' k' :
  (c, k) ≠ (c', k') →
  YStore.put d (c, k, v) !! c' ≫= (.!! k') = d !! c' ≫= (.!! k').
Proof.
  intros Hne. cbn. destruct (decide (c = c')) as [->|Hc].
  - rewrite lookup_insert_eq. cbn.
    rewrite lookup_insert_ne by congruence.
    destruct (d !! c'); cbn; [done | by rewrite lookup_empty].
  - by rewrite lookup_insert_ne.
Qed.

(** When every staged write to the cell [(c, k)] carries [v] and one
    such write is staged, the cell holds [v] after the batch. *)
Lemma apply_batch_cell (d : nested) (b : YStore.Batch) c k v :
  (∀ x, (c, k, x) ∈ b → x = v) →
  (c, k, v) ∈ b →
  YStore.apply_batch d b !! c ≫= (.!! k) = Some v.
Proof.
  induction b as [|[[c' k'] x] b IH] using rev_ind; intros Hall Hin.
  - by apply elem_of_nil in Hin.
  - rewrite apply_batch_snoc.
    destruct (decide ((c', k') = (c, k))) as [Heq|Hne].
    + injection Heq as -> ->.
      rewrite (Hall x) by (apply elem_of_app; right; by apply list_elem_of_singleton).
      apply index2_put_eq.
    + rewrite index2_put_ne by done.
      apply IH.
      * intros y Hy. apply Hall, elem_of_app. by left.
      * apply elem_of_app in Hin as [Hin|Hin]; [done|].
        apply list_elem_of_singleton in Hin. congruence.
Qed.

Lemma Read_ok (s : YStore.t) c k v :
  YStore.fault s = None →
  YStore.data s !! c ≫= (.!! k) = Some v →
  YStore.Read s c k = (v, None).
Proof.
  intros Hf Hv. unfold YStore.Read. rewrite Hf.
  destruct (YStore.data s !! c) as [col|]; [|done]. cbn in Hv. by rewrite Hv.
Qed.

Lemma Read_absent (s : YStore.t) c k :
  YStore.fault s = None →
  YStore.data s !! c ≫= (.!! k) = None →
  YStore.Read s c k = ("", Some ErrorCollectionNotFound)
  ∨ YStore.Read s c k = ("", Some ErrorKeyNotFound).
Proof.
  intros Hf Hv. unfold YStore.Read. rewrite Hf.
  destruct (YStore.data s !! c) as [col|]; [|by left]. cbn in Hv.
  rewrite Hv. by right.
Qed.

End StoreFacts.

(** ** [Set] then [Get] *)

Section SetGet.

(** What the loop of [Set] stages: only entries of [filename], taken
    from [entries], and every entry of the target environment. *)
Lemma Set_stage_spec s filename environment entries batch :
  ∃ staged,
    Set_stage s filename environment entries batch = (batch ++ staged, None)
    ∧ (∀ c k x, (c, k, x) ∈ staged → c = filename ∧ (k, x) ∈ entries)
    ∧ (∀ x, (environment, x) ∈ entries → (filename, environment, x) ∈ staged).
Proof.
  revert batch. induction entries as [|[env version] rest IH]; intros batch.
  - exists []. rewrite app_nil_r. repeat split; intros; by (exfalso; eapply not_elem_of_nil).
  - cbn [Set_stage].
    destruct (YStore.Read s filename environment) as [currentVersion err0].
    destruct (String.eqb currentVersion "" || String.eqb env environment) eqn:Hc.
    + cbn [YStore.Write].
      destruct (IH (batch ++ [(filename, env, version)])) as (staged & Heq & Hsub & Htgt).
      exists ((filename, env, version) :: staged).
      rewrite Heq, <- app_assoc. cbn. split; [done|]. split.
      * intros c k x [[= -> -> ->]|Hin]%elem_of_cons.
        -- split; [done | left].
        -- destruct (Hsub _ _ _ Hin). split; [done | by right].
      * intros x [[= <- <-]|Hin]%elem_of_cons; [left | right; auto].
    + destruct (IH batch) as (staged & Heq & Hsub & Htgt).
      exists staged. split; [done|]. split.
      * intros c k x Hin. destruct (Hsub _ _ _ Hin). split; [done | by right].
      * intros x [[= <- <-]|Hin]%elem_of_cons; [|auto].
        apply orb_false_iff in Hc as [_ Hc].
        by rewrite String.eqb_refl in Hc.
Qed.

End SetGet.

(** C4. If [Set(filename, environment, value)] returns without error, a
    following [Get(filename, environment)] returns [value] and no
    error. *)
Theorem Set_then_Get (m m' : fileManifest) (filename environment value : string) :
  Set_ m filename environment value = (m', None) →
  Get m' filename environment = (value, None).
Proof.
  unfold Set_.
  set (remote1 := match remote m !! filename with
                  | Some _ => remote m | None => <[filename := ∅]> (remote m) end).
  set (envs := <[environment := value]> (default ∅ (remote1 !! filename))).
  rewrite lookup_insert_eq. cbn [from_option id]. unfold YStore.NewBatch.
  destruct (Set_stage_spec (store m) filename environment (map_to_list envs) [])
    as (staged & Heq & Hsub & Htgt).
  cbn [with_remote store]. rewrite Heq. cbn [app].
  unfold YStore.Commit, reload, YStore.Dump.
  destruct (YStore.fault (store m)) as [msg|] eqn:Hf; [done|].
  cbn. intros [= <-]. unfold Get. cbn [store].
  erewrite Read_ok; [done | done |]. cbn.
  apply apply_batch_cell.
  - intros x Hx. destruct (Hsub _ _ _ Hx) as [_ Hin].
    apply elem_of_map_to_list in Hin. unfold envs in Hin.
    rewrite lookup_insert_eq in Hin. congruence.
  - apply Htgt, elem_of_map_to_list. unfold envs. apply lookup_insert_eq.
Qed.

(** C4, at a manifest with one stored file. *)
Lemma Set_then_Get_witness :
  Get (Set_ demo "b.css" "dev" "t1").1 "b.css" "dev" = ("t1", None).
Proof.
  apply (Set_then_Get demo _ "b.css" "dev" "t1"). vm_compute. reflexivity.
Defined.

(** ** [Delete] then [Get], and the errors of [Get] *)

Lemma Get_of_absent (m : fileManifest) filename environment :
  YStore.fault (store m) = None →
  YStore.data (store m) !! filename ≫= (.!! environment) = None →
  Get m filename environment = ("", None).
Proof.
  intros Hf Hv. unfold Get.
  by destruct (Read_absent _ _ _ Hf Hv) as [-> | ->].
Qed.

Lemma Delete_store_cell (s s' : YStore.t) collection key :
  YStore.Delete s collection key = (s', None) →
  YStore.fault s' = None
  ∧ YStore.data s' !! collection ≫= (.!! key) = None.
Proof.
  unfold YStore.Delete. destruct (YStore.fault s); [done|].
  intros [= <-]. cbn. split; [done|].
  destruct (YStore.data s !! collection) as [col|] eqn:Hc.
  - rewrite lookup_insert_eq. cbn. apply lookup_delete_eq.
  - by rewrite Hc.
Qed.

(** C5. After a [Delete(filename, environment)] that succeeds,
    [Get(filename, environment)] returns the empty value and no error.
    In general [Get] turns the store's collection-not-found and
    key-not-found answers into the empty value with no error, hands any
    other store error to its caller, and returns what was read
    otherwise. *)
Theorem Delete_then_Get (m : fileManifest) (filename environment : string) :
  (∀ m', Delete m filename environment = (m', None) →
         Get m' filename environment = ("", None))
  ∧ (∀ version err,
       YStore.Read (store m) filename environment = (version, err) →
       Get m filename environment =
         match err with
         | Some ErrorCollectionNotFound | Some ErrorKeyNotFound => ("", None)
         | Some other => ("", Some other)
         | None => (version, None)
         end).
Proof.
  split.
  - intros m'. unfold Delete.
    destruct (YStore.Delete (store m) filename environment) as [s' [e|]] eqn:Hd;
      [done|].
    apply Delete_store_cell in Hd as [Hf Hcell].
    unfold reload, YStore.Dump.
    destruct (remote (with_store m s') !! filename); cbn [store with_remote with_store];
      rewrite Hf; intros [= <-]; by apply Get_of_absent.
  - intros version err. unfold Get, YStore.Read.
    destruct (YStore.fault (store m)) as [msg|]; [by intros [= <- <-]|].
    destruct (YStore.data (store m) !! filename) as [col|]; [|by intros [= <- <-]].
    destruct (col !! environment); by intros [= <- <-].
Qed.

(** C5, at a stored entry that is deleted, and at a store that cannot be
    read. *)
Lemma Delete_then_Get_witness :
  Get (Delete demo "a.liquid" "dev").1 "a.liquid" "dev" = ("", None)
  ∧ Get (mkManifest broken_store ∅ ∅) "a.liquid" "dev"
    = ("", Some (Errorf "theme.lock: permission denied")).
Proof.
  split.
  - apply (proj1 (Delete_then_Get demo "a.liquid" "dev")).
    vm_compute. reflexivity.
  - apply (proj2 (Delete_then_Get (mkManifest broken_store ∅ ∅) "a.liquid" "dev")
             "" (Some (Errorf "theme.lock: permission denied"))).
    vm_compute. reflexivity.
Defined.

(** ** Reconciliation decisions *)

Section Decisions.

Variable time_Parse_RFC3339 : string → option Time.

(** The library rejects the empty string. *)
Hypothesis time_Parse_empty : time_Parse_RFC3339 "" = None.

Lemma diffDates_timestamps (m : fileManifest) filename dstEnv srcEnv :
  diffDates time_Parse_RFC3339 m filename dstEnv srcEnv =
    (timestamp_of time_Parse_RFC3339 (local m !! filename ≫= (.!! srcEnv)),
     timestamp_of time_Parse_RFC3339 (remote m !! filename ≫= (.!! dstEnv))).
Proof using time_Parse_empty.
  unfold diffDates, index2, parseTime.
  f_equal.
  - destruct (local m !! filename) as [envs|]; [cbn|done].
    destruct (envs !! srcEnv); cbn; [done|]. by rewrite time_Parse_empty.
  - destruct (remote m !! filename) as [envs|]; [cbn|done].
    destruct (envs !! dstEnv); cbn; [done|]. by rewrite time_Parse_empty.
Qed.

(** C6. With [local] and [remote] the two timestamps of [diffDates]
    for one environment (zero when the token is absent or does not
    parse): [NeedsDownloading] holds iff [local] is before [remote] or
    [local] is zero; [ShouldUpload] iff [remote] is before [local], or
    [remote] is zero, or [local] is zero; [ShouldRemove] iff [remote] is
    before [local] or [local] is zero. *)
Theorem decisions_truth_table (m : fileManifest) (filename environment : string) :
  let local_ := timestamp_of time_Parse_RFC3339 (local m !! filename ≫= (.!! environment)) in
  let remote_ := timestamp_of time_Parse_RFC3339 (remote m !! filename ≫= (.!! environment)) in
  diffDates time_Parse_RFC3339 m filename environment environment = (local_, remote_)
  ∧ (NeedsDownloading time_Parse_RFC3339 m filename environment = true
     ↔ (local_ < remote_)%Z ∨ local_ = zeroTime)
  ∧ (ShouldUpload time_Parse_RFC3339 m filename environment = true
     ↔ (remote_ < local_)%Z ∨ remote_ = zeroTime ∨ local_ = zeroTime)
  ∧ (ShouldRemove time_Parse_RFC3339 m filename environment = true
     ↔ (remote_ < local_)%Z ∨ local_ = zeroTime).
Proof using time_Parse_empty.
  intros local_ remote_.
  assert (Hd := diffDates_timestamps m filename environment environment).
  fold local_ remote_ in Hd.
  unfold NeedsDownloading, ShouldUpload, ShouldRemove. rewrite Hd.
  unfold Before, IsZero, zeroTime.
  rewrite !orb_true_iff, !Z.ltb_lt, !Z.eqb_eq. tauto.
Qed.

End Decisions.

(** C6, at a file whose ledger entry is older than the remote one. *)
Lemma decisions_truth_table_witness :
  NeedsDownloading two_stamps stale "a.liquid" "dev" = true
  ∧ ShouldUpload two_stamps stale "a.liquid" "dev" = false
  ∧ ShouldRemove two_stamps stale "a.liquid" "dev" = false.
Proof.
  destruct (decisions_truth_table two_stamps eq_refl stale "a.liquid" "dev")
    as (_ & Hd & Hu & Hr).
  split; [|split].
  - apply Hd. left. vm_compute. reflexivity.
  - apply not_true_is_false. intros H. apply Hu in H. revert H. vm_compute.
    intros [H|[H|H]]; discriminate H.
  - apply not_true_is_false. intros H. apply Hr in H. revert H. vm_compute.
    intros [H|H]; discriminate H.
Defined.

Lemma elem_of_range_keys {V : Type} (m : gmap string V) (k : string) :
  k ∈ range_keys m ↔ k ∈ dom m.
Proof.
  unfold range_keys. rewrite elem_of_dom, list_elem_of_fmap. split.
  - intros ([k' v] & -> & Hin). apply elem_of_map_to_list in Hin. by exists v.
  - intros [v Hv]. exists (k, v). split; [done|]. by apply elem_of_map_to_list.
Qed.

Lemma NoDup_range_keys {V : Type} (m : gmap string V) : NoDup (range_keys m).
Proof. apply NoDup_fst_map_to_list. Qed.

(** ** [FetchableFiles] *)

Section Fetchable.

Variable filepath_Match : string → string → bool * option error.

Lemma foldl_snoc_id (l acc : list string) :
  foldl (λ acc x, acc ++ [x]) acc l = acc ++ l.
Proof.
  revert acc. induction l as [|x l IH]; intros acc; cbn.
  - by rewrite app_nil_r.
  - by rewrite IH, <- app_assoc.
Qed.

Lemma sort_names_spec filenames wildCards fetchable :
  sort_names filenames wildCards fetchable =
    (wildCards ++ filter (λ f, strings_Contains f "*" = true) filenames,
     fetchable ++ filter (λ f, strings_Contains f "*" = false) filenames).
Proof.
  revert wildCards fetchable.
  induction filenames as [|f rest IH]; intros wildCards fetchable;
    cbn [sort_names].
  - by rewrite !filter_nil, !app_nil_r.
  - destruct (strings_Contains f "*") eqn:Hf; rewrite IH.
    + rewrite filter_cons_True, filter_cons_False by (by rewrite Hf).
      by rewrite <- app_assoc.
    + rewrite filter_cons_False, filter_cons_True by (by rewrite Hf).
      by rewrite <- app_assoc.
Qed.

Lemma elem_of_match_wildcards wildCards assetName fetchable x :
  x ∈ match_wildcards filepath_Match wildCards assetName fetchable ↔
  x ∈ fetchable
  ∨ (x = assetName ∧ ∃ w, w ∈ wildCards ∧ (filepath_Match w assetName).1 = true).
Proof.
  revert fetchable. induction wildCards as [|w rest IH]; intros fetchable; cbn.
  - split; [by left|]. intros [H|(_ & w & Hw & _)]; [done|].
    by apply elem_of_nil in Hw.
  - destruct (filepath_Match w assetName) as [matched err] eqn:Hm.
    rewrite IH. destruct matched.
    + rewrite elem_of_app, list_elem_of_singleton. split.
      * intros [[H| ->]|(-> & w' & Hw' & Hm')]; [by left| |].
        -- right. split; [done|]. exists w. split; [left|by rewrite Hm].
        -- right. split; [done|]. exists w'. split; [by right|done].
      * intros [H|(-> & w' & Hw' & Hm')]; [by left; left|].
        left. by right.
    + split.
      * intros [H|(-> & w' & Hw' & Hm')]; [by left|].
        right. split; [done|]. exists w'. split; [by right|done].
      * intros [H|(-> & w' & Hw' & Hm')]; [by left|].
        apply elem_of_cons in Hw' as [->|Hw'].
        -- rewrite Hm in Hm'. discriminate Hm'.
        -- right. split; [done|]. by exists w'.
Qed.

Lemma elem_of_match_assets wildCards assetNames fetchable x :
  x ∈ match_assets filepath_Match wildCards assetNames fetchable ↔
  x ∈ fetchable
  ∨ (x ∈ assetNames ∧ ∃ w, w ∈ wildCards ∧ (filepath_Match w x).1 = true).
Proof.
  revert fetchable. induction assetNames as [|a rest IH]; intros fetchable; cbn.
  - split; [by left|]. intros [H|(Hx & _)]; [done|]. by apply elem_of_nil in Hx.
  - rewrite IH, elem_of_match_wildcards. split.
    + intros [[H|(-> & Hw)]|(Hx & Hw)]; [by left| |].
      * right. split; [left|done].
      * right. split; [by right|done].
    + intros [H|(Hx & Hw)]; [by left; left|].
      apply elem_of_cons in Hx as [->|Hx].
      * left. right. by split.
      * right. by split.
Qed.

(** C7. With no requested filename [FetchableFiles] returns exactly the
    keys of [remote], each once.  With requested filenames it returns
    the names without a wildcard as they were given and, for each
    pattern with a wildcard, the remote filenames that match it, and
    nothing else. *)
Theorem FetchableFiles_spec (m : fileManifest) (env : string) :
  (NoDup (FetchableFiles filepath_Match m [] env)
   ∧ ∀ x, x ∈ FetchableFiles filepath_Match m [] env ↔ x ∈ dom (remote m))
  ∧ (∀ filename rest x,
       let filenames := filename :: rest in
       x ∈ FetchableFiles filepath_Match m filenames env ↔
       (x ∈ filenames ∧ strings_Contains x "*" = false)
       ∨ (∃ wildcard, wildcard ∈ filenames
                      ∧ strings_Contains wildcard "*" = true
                      ∧ x ∈ dom (remote m)
                      ∧ (filepath_Match wildcard x).1 = true)).
Proof.
  split.
  - unfold FetchableFiles. cbn [length Z.of_nat Z.leb Z.compare].
    rewrite foldl_snoc_id. cbn [app]. split.
    + apply NoDup_range_keys.
    + intros x. apply elem_of_range_keys.
  - intros filename rest x filenames. unfold FetchableFiles.
    replace (Z.of_nat (length filenames) <=? 0)%Z with false
      by (symmetry; apply Z.leb_gt; unfold filenames; cbn [length]; lia).
    rewrite sort_names_spec. cbn [app].
    set (wildCards := filter (λ f, strings_Contains f "*" = true) filenames).
    set (literals := filter (λ f, strings_Contains f "*" = false) filenames).
    assert (Hlit : x ∈ literals ↔ x ∈ filenames ∧ strings_Contains x "*" = false).
    { unfold literals. rewrite list_elem_of_filter. tauto. }
    assert (Hwild : ∀ w, w ∈ wildCards ↔ w ∈ filenames ∧ strings_Contains w "*" = true).
    { intros w. unfold wildCards. rewrite list_elem_of_filter. tauto. }
    destruct (Z.of_nat (length wildCards) >? 0)%Z eqn:Hlen.
    + rewrite elem_of_match_assets, elem_of_range_keys, Hlit. split.
      * intros [H|(Hx & w & Hw & Hm)]; [by left|].
        right. exists w. apply Hwild in Hw as [??]. done.
      * intros [H|(w & Hw & Hc & Hx & Hm)]; [by left|].
        right. split; [done|]. exists w. split; [|done]. by apply Hwild.
    + rewrite Hlit. split; [by left|].
      intros [H|(w & Hw & Hc & _)]; [done|].
      assert (Hin : w ∈ wildCards) by by apply Hwild.
      destruct wildCards; [by apply elem_of_nil in Hin|].
      cbn [length] in Hlen. rewrite Z.gtb_ltb in Hlen.
      apply Z.ltb_ge in Hlen. lia.
Qed.

End Fetchable.

(** ** [backfillLocal] *)

Section Backfill.

Lemma backfill_envs_spec localEnvs filename entries batch :
  ∃ staged,
    backfill_envs localEnvs filename entries batch = (batch ++ staged, None)
    ∧ ∀ c k x, (c, k, x) ∈ staged ↔
               c = filename ∧ (k, x) ∈ entries ∧ localEnvs !! k = None.
Proof.
  revert batch. induction entries as [|[env version] rest IH]; intros batch.
  - exists []. rewrite app_nil_r. split; [done|]. intros c k x. split.
    + by intros ?%elem_of_nil.
    + by intros (_ & ?%elem_of_nil & _).
  - cbn [backfill_envs]. destruct (localEnvs !! env) as [v|] eqn:Hl.
    + destruct (IH batch) as (staged & Heq & Hin). exists staged.
      split; [done|]. intros c k x. rewrite Hin, elem_of_cons. split.
      * intros (-> & H & Hk). by eauto.
      * intros (-> & [[= -> ->]|H] & Hk); [congruence|done].
    + cbn [YStore.Write].
      destruct (IH (batch ++ [(filename, env, version)])) as (staged & Heq & Hin).
      exists ((filename, env, version) :: staged).
      rewrite Heq, <- app_assoc. split; [done|].
      intros c k x. rewrite !elem_of_cons, Hin. split.
      * intros [[= -> -> ->]|(-> & H & Hk)]; by eauto.
      * intros (-> & [[= -> ->]|H] & Hk); by eauto.
Qed.

Lemma backfill_files_spec (local_ : nested) files batch :
  ∃ staged,
    backfill_files local_ files batch = (batch ++ staged, None)
    ∧ ∀ c k x, (c, k, x) ∈ staged ↔
               ∃ remoteEnvs localEnvs,
                 (c, remoteEnvs) ∈ files ∧ local_ !! c = Some localEnvs
                 ∧ remoteEnvs !! k = Some x ∧ localEnvs !! k = None.
Proof.
  revert batch. induction files as [|[filename remoteEnvs] rest IH]; intros batch.
  - exists []. rewrite app_nil_r. split; [done|]. intros c k x. split.
    + by intros ?%elem_of_nil.
    + by intros (? & ? & ?%elem_of_nil & _).
  - cbn [backfill_files]. destruct (local_ !! filename) as [localEnvs|] eqn:Hl.
    + destruct (backfill_envs_spec localEnvs filename (map_to_list remoteEnvs) batch)
        as (staged1 & -> & Hin1).
      destruct (IH (batch ++ staged1)) as (staged2 & -> & Hin2).
      exists (staged1 ++ staged2). rewrite <- app_assoc. split; [done|].
      intros c k x. rewrite elem_of_app, Hin1, Hin2. split.
      * intros [(-> & H & Hk)|(r & l & H & Hc & Hr & Hk)].
        -- exists remoteEnvs, localEnvs. apply elem_of_map_to_list in H.
           split; [left|done].
        -- exists r, l. split; [by right|done].
      * intros (r & l & [[= -> ->]|H]%elem_of_cons & Hc & Hr & Hk).
        -- left. split; [done|]. rewrite elem_of_map_to_list.
           split; [done|congruence].
        -- right. by exists r, l.
    + destruct (IH batch) as (staged & -> & Hin). exists staged.
      split; [done|]. intros c k x. rewrite Hin. split.
      * intros (r & l & H & Hrest). exists r, l. split; [by right|done].
      * intros (r & l & [[= -> ->]|H]%elem_of_cons & Hc & Hrest); [congruence|].
        by exists r, l.
Qed.

(** The staged writes of [backfillLocal]: the remote entries of the
    files that have a local entry, for the environments that entry
    lacks. *)
Lemma backfillLocal_staged_spec (m : fileManifest) :
  ∃ staged,
    backfillLocal_staged m = (staged, None)
    ∧ ∀ f e token, (f, e, token) ∈ staged ↔
                   remote m !! f ≫= (.!! e) = Some token
                   ∧ is_Some (local m !! f)
                   ∧ local m !! f ≫= (.!! e) = None.
Proof.
  unfold backfillLocal_staged, YStore.NewBatch.
  destruct (backfill_files_spec (local m) (map_to_list (remote m)) [])
    as (staged & -> & Hin).
  exists staged. split; [done|]. intros f e token. rewrite Hin. split.
  - intros (r & l & Hr%elem_of_map_to_list & Hl & Hre & Hle).
    rewrite Hr, Hl. cbn. eauto.
  - intros (Hr & [l Hl] & Hle).
    destruct (remote m !! f) as [r|] eqn:Hrf; [|done].
    exists r, l. rewrite elem_of_map_to_list. rewrite Hl in Hle. done.
Qed.

End Backfill.

(** C1 (amended). With a usable store, [backfillLocal] stages a write of
    [token] at [(filename, environment)] exactly for the triples of
    [remote] whose filename has an entry in [local] that lacks the
    environment; it commits that batch once and reloads [local] from the
    store, where each staged token is then found.  A filename with no
    entry in [local] gets nothing staged. *)
Theorem backfillLocal_spec (m : fileManifest) :
  YStore.fault (store m) = None →
  let staged := (backfillLocal_staged m).1 in
  (backfillLocal_staged m).2 = None
  ∧ (∀ f e token, (f, e, token) ∈ staged ↔
                  remote m !! f ≫= (.!! e) = Some token
                  ∧ is_Some (local m !! f)
                  ∧ local m !! f ≫= (.!! e) = None)
  ∧ (∀ f e token, local m !! f = None → (f, e, token) ∉ staged)
  ∧ backfillLocal m =
      (let contents := YStore.apply_batch (YStore.data (store m)) staged in
       mkManifest (YStore.mk contents (YStore.comment (store m)) None)
                  contents (remote m), None)
  ∧ (∀ f e token, (f, e, token) ∈ staged →
                  local (backfillLocal m).1 !! f ≫= (.!! e) = Some token).
Proof.
  intros Hf staged.
  destruct (backfillLocal_staged_spec m) as (staged' & Heq & Hin).
  assert (staged = staged') as -> by (unfold staged; by rewrite Heq).
  split; [by rewrite Heq|]. split; [done|].
  assert (Hrun : backfillLocal m =
    (let contents := YStore.apply_batch (YStore.data (store m)) staged' in
     mkManifest (YStore.mk contents (YStore.comment (store m)) None)
                contents (remote m), None)).
  { unfold backfillLocal. rewrite Heq. unfold YStore.Commit. rewrite Hf. done. }
  split; [|split; [done|]].
  - intros f e token Hl Hs. apply Hin in Hs as (_ & [l Hl'] & _). congruence.
  - intros f e token Hs. rewrite Hrun. cbn [fst local].
    apply apply_batch_cell; [|done].
    intros x Hx. apply Hin in Hx as (Hx & _). apply Hin in Hs as (Hs & _).
    congruence.
Qed.

(** C1 (amended), at a ledger that knows [a.liquid] for one of its two
    remote environments and does not know [new.liquid]. *)
Lemma backfillLocal_spec_witness :
  local (backfillLocal first_run).1 !! "a.liquid" ≫= (.!! "prod")
    = Some "2021-06-01T00:00:00Z"
  ∧ ("new.liquid", "dev", "2021-06-01T00:00:00Z") ∉ (backfillLocal_staged first_run).1.
Proof.
  destruct (backfillLocal_spec first_run eq_refl) as (_ & _ & Hskip & _ & Hloc).
  split.
  - apply Hloc. vm_compute. left.
  - apply Hskip. vm_compute. reflexivity.
Defined.

(** C1 as stated fails: [new.liquid] is reported by the remote for [dev]
    and is absent from [local], yet no write is staged for it. *)
Lemma backfillLocal_skips_unknown_files :
  ¬ (∀ f e token,
       remote first_run !! f ≫= (.!! e) = Some token →
       local first_run !! f ≫= (.!! e) = None →
       (f, e, token) ∈ (backfillLocal_staged first_run).1).
Proof.
  intros H.
  specialize (H "new.liquid" "dev" "2021-06-01T00:00:00Z").
  assert (Hin : ("new.liquid", "dev", "2021-06-01T00:00:00Z")
                ∈ (backfillLocal_staged first_run).1).
  { apply H; vm_compute; reflexivity. }
  vm_compute in Hin.
  apply list_elem_of_singleton in Hin. discriminate Hin.
Qed.

(** ** [prune] *)

Section IndexOf.

Lemma indexOf_from_none (i len : nat) (predicate : nat → bool) :
  indexOf_from i len predicate = (-1)%Z ↔
  ∀ j, i ≤ j < i + len → predicate j = false.
Proof.
  revert i. induction len as [|len IH]; intros i; cbn [indexOf_from].
  - split; [intros _ j Hj; lia | done].
  - destruct (predicate i) eqn:Hp.
    + split; [lia|]. intros H. rewrite H in Hp by lia. discriminate Hp.
    + rewrite IH. split.
      * intros H j Hj. destruct (decide (j = i)) as [->|Hne]; [done|].
        apply H. lia.
      * intros H j Hj. apply H. lia.
Qed.

Lemma indexOf_none (len : nat) (predicate : nat → bool) :
  indexOf len predicate = (-1)%Z ↔ ∀ j, j < len → predicate j = false.
Proof.
  unfold indexOf. rewrite indexOf_from_none. split.
  - intros H j Hj. apply H. lia.
  - intros H j Hj. apply H. lia.
Qed.

(** Scanning the clients finds nothing iff no client satisfies the
    test. *)
Lemma indexOf_clients_none (clients : list ThemeClient) (test : ThemeClient → bool) :
  indexOf (length clients)
    (λ i, match clients !! i with Some c => test c | None => false end) = (-1)%Z
  ↔ ∀ c, c ∈ clients → test c = false.
Proof.
  rewrite indexOf_none. split.
  - intros H c [i Hi]%list_elem_of_lookup.
    specialize (H i (lookup_lt_Some _ _ _ Hi)). by rewrite Hi in H.
  - intros H j Hj. destruct (clients !! j) as [c|] eqn:Hc; [|done].
    apply H. apply list_elem_of_lookup. by exists j.
Qed.

End IndexOf.

Section StoreCells.

Lemma DeleteCollection_cell (s : YStore.t) collection :
  YStore.fault s = None →
  ∃ s', YStore.DeleteCollection s collection = (s', None)
        ∧ YStore.fault s' = None
        ∧ ∀ f e, cell (YStore.data s') f e =
                 if decide (f = collection) then None else cell (YStore.data s) f e.
Proof.
  intros Hf. unfold YStore.DeleteCollection. rewrite Hf.
  eexists. split; [done|]. split; [done|]. intros f e. unfold cell. cbn.
  destruct (decide (f = collection)) as [->|Hne].
  - by rewrite lookup_delete_eq.
  - by rewrite lookup_delete_ne.
Qed.

Lemma Delete_cell (s : YStore.t) collection key :
  YStore.fault s = None →
  ∃ s', YStore.Delete s collection key = (s', None)
        ∧ YStore.fault s' = None
        ∧ ∀ f e, cell (YStore.data s') f e =
                 if decide (f = collection ∧ e = key) then None
                 else cell (YStore.data s) f e.
Proof.
  intros Hf. unfold YStore.Delete. rewrite Hf.
  eexists. split; [done|]. split; [done|]. intros f e. unfold cell. cbn.
  destruct (YStore.data s !! collection) as [col|] eqn:Hc.
  - destruct (decide (f = collection)) as [->|Hne].
    + rewrite lookup_insert_eq, Hc. cbn.
      destruct (decide (e = key)) as [->|Hne].
      * rewrite decide_True by done. apply lookup_delete_eq.
      * rewrite decide_False by tauto. by apply lookup_delete_ne.
    + rewrite lookup_insert_ne by done. rewrite decide_False by tauto. done.
  - destruct (decide (f = collection ∧ e = key)) as [[-> ->]|Hne]; [|done].
    by rewrite Hc.
Qed.

End StoreCells.

Section PruneFiles.

Variable file_on_disk : string → string → bool.
Variable clients : list ThemeClient.

Lemma has_file_none filename :
  indexOf (length clients) (has_file file_on_disk clients filename) = (-1)%Z
  ↔ ¬ on_some_disk file_on_disk clients filename.
Proof.
  unfold has_file.
  rewrite (indexOf_clients_none clients
             (λ c, file_on_disk (Directory (Config c)) filename)).
  split.
  - intros H (c & Hc & Hd). rewrite (H c Hc) in Hd. discriminate Hd.
  - intros H c Hc. apply not_true_is_false. intros Hd. apply H. by exists c.
Qed.

(** The first loop drops the collections of the visited files that the
    remote does not report and no disk holds, and touches nothing
    else. *)
Lemma prune_files_cells (remote_ : nested) files (s : YStore.t) :
  YStore.fault s = None →
  ∃ s', prune_files file_on_disk clients remote_ files s = (s', None)
        ∧ YStore.fault s' = None
        ∧ ∀ f e,
            (f ∈ files.*1 ∧ remote_ !! f = None ∧ ¬ on_some_disk file_on_disk clients f →
             cell (YStore.data s') f e = None)
            ∧ (¬ (f ∈ files.*1 ∧ remote_ !! f = None ∧ ¬ on_some_disk file_on_disk clients f) →
               cell (YStore.data s') f e = cell (YStore.data s) f e).
Proof.
  revert s. induction files as [|[filename envs] rest IH]; intros s Hf.
  - exists s. split; [done|]. split; [done|]. intros f e. split; [|done].
    by intros [?%elem_of_nil _].
  - cbn [prune_files fmap list_fmap fst].
    destruct (remote_ !! filename) as [r|] eqn:Hr.
    { destruct (IH s Hf) as (s' & Heq & Hf' & Hcells).
      exists s'. split; [done|]. split; [done|]. intros f e.
      destruct (Hcells f e) as [Ha Hb]. split.
      - intros ([->|Hin]%elem_of_cons & Hnone & Hdisk); [congruence|].
        by apply Ha.
      - intros Hn. apply Hb. intros (Hin & Hrest). apply Hn.
        split; [by right|done]. }
    destruct (indexOf (length clients) (has_file file_on_disk clients filename)
              =? -1)%Z eqn:Hi.
    + apply Z.eqb_eq, has_file_none in Hi.
      destruct (DeleteCollection_cell s filename Hf) as (s1 & -> & Hf1 & Hc1).
      destruct (IH s1 Hf1) as (s' & Heq & Hf' & Hcells).
      exists s'. split; [done|]. split; [done|]. intros f e.
      destruct (Hcells f e) as [Ha Hb]. split.
      * intros (Hin & Hnone & Hdisk).
        destruct (decide (f ∈ rest.*1)) as [Hrest|Hrest]; [by apply Ha|].
        rewrite Hb by tauto. rewrite Hc1.
        apply elem_of_cons in Hin as [->|Hin]; [|done].
        by rewrite decide_True.
      * intros Hn. rewrite Hb.
        -- rewrite Hc1. rewrite decide_False; [done|].
           intros ->. apply Hn. split; [left|done].
        -- intros (Hin & Hrest). apply Hn. split; [by right|done].
    + apply Z.eqb_neq in Hi. rewrite has_file_none in Hi.
      destruct (IH s Hf) as (s' & Heq & Hf' & Hcells).
      exists s'. split; [done|]. split; [done|]. intros f e.
      destruct (Hcells f e) as [Ha Hb]. split.
      * intros ([->|Hin]%elem_of_cons & Hnone & Hdisk); [done|].
        by apply Ha.
      * intros Hn. apply Hb. intros (Hin & Hrest). apply Hn.
        split; [by right|done].
Qed.

Lemma on_some_disk_dec filename : Decision (on_some_disk file_on_disk clients filename).
Proof. unfold on_some_disk. apply list_exist_dec. intros c. apply _. Qed.

End PruneFiles.

Section PruneEnvironments.

Variable clients : list ThemeClient.

Lemma is_environment_none envname :
  indexOf (length clients) (is_environment clients envname) = (-1)%Z
  ↔ ¬ configured clients envname.
Proof.
  unfold is_environment.
  rewrite (indexOf_clients_none clients
             (λ c, String.eqb (Environment (Config c)) envname)).
  split.
  - intros H (c & Hc & He). specialize (H c Hc).
    apply String.eqb_neq in H. done.
  - intros H c Hc. apply String.eqb_neq. intros He. apply H. by exists c.
Qed.

Lemma prune_envs_cells filename envnames (s : YStore.t) :
  YStore.fault s = None →
  ∃ s', prune_envs clients filename envnames s = (s', None)
        ∧ YStore.fault s' = None
        ∧ ∀ f e,
            (f = filename ∧ e ∈ envnames ∧ ¬ configured clients e →
             cell (YStore.data s') f e = None)
            ∧ (¬ (f = filename ∧ e ∈ envnames ∧ ¬ configured clients e) →
               cell (YStore.data s') f e = cell (YStore.data s) f e).
Proof.
  revert s. induction envnames as [|envname rest IH]; intros s Hf.
  - exists s. split; [done|]. split; [done|]. intros f e. split; [|done].
    by intros (_ & ?%elem_of_nil & _).
  - cbn [prune_envs].
    destruct (indexOf (length clients) (is_environment clients envname) =? -1)%Z
      eqn:Hi.
    + apply Z.eqb_eq, is_environment_none in Hi.
      destruct (Delete_cell s filename envname Hf) as (s1 & -> & Hf1 & Hc1).
      destruct (IH s1 Hf1) as (s' & Heq & Hf' & Hcells).
      exists s'. split; [done|]. split; [done|]. intros f e.
      destruct (Hcells f e) as [Ha Hb]. split.
      * intros (-> & Hin & Hcfg).
        destruct (decide (e ∈ rest)) as [Hrest|Hrest]; [by apply Ha|].
        rewrite Hb by tauto. rewrite Hc1.
        apply elem_of_cons in Hin as [->|Hin]; [|done].
        by rewrite decide_True.
      * intros Hn. rewrite Hb.
        -- rewrite Hc1. rewrite decide_False; [done|].
           intros [-> ->]. apply Hn. split; [done|]. split; [left|done].
        -- intros (-> & Hin & Hcfg). apply Hn. split; [done|].
           split; [by right|done].
    + apply Z.eqb_neq in Hi. rewrite is_environment_none in Hi.
      destruct (IH s Hf) as (s' & Heq & Hf' & Hcells).
      exists s'. split; [done|]. split; [done|]. intros f e.
      destruct (Hcells f e) as [Ha Hb]. split.
      * intros (-> & [->|Hin]%elem_of_cons & Hcfg); [done|]. by apply Ha.
      * intros Hn. apply Hb. intros (-> & Hin & Hcfg). apply Hn.
        split; [done|]. split; [by right|done].
Qed.

(** The second loop drops the visited entries whose environment is not
    configured, and touches nothing else. *)
Lemma prune_environments_cells files (s : YStore.t) :
  YStore.fault s = None →
  ∃ s', prune_environments clients files s = (s', None)
        ∧ YStore.fault s' = None
        ∧ ∀ f e,
            ((∃ envs, (f, envs) ∈ files ∧ e ∈ dom envs) ∧ ¬ configured clients e →
             cell (YStore.data s') f e = None)
            ∧ (¬ ((∃ envs, (f, envs) ∈ files ∧ e ∈ dom envs) ∧ ¬ configured clients e) →
               cell (YStore.data s') f e = cell (YStore.data s) f e).
Proof.
  revert s. induction files as [|[filename envs] rest IH]; intros s Hf.
  - exists s. split; [done|]. split; [done|]. intros f e. split; [|done].
    by intros [(? & ?%elem_of_nil & _) _].
  - cbn [prune_environments].
    destruct (prune_envs_cells filename (range_keys envs) s Hf)
      as (s1 & -> & Hf1 & Hc1).
    destruct (IH s1 Hf1) as (s' & Heq & Hf' & Hcells).
    exists s'. split; [done|]. split; [done|]. intros f e.
    destruct (Hcells f e) as [Ha Hb]. destruct (Hc1 f e) as [Ha1 Hb1].
    assert (Hdec : Decision (∃ envs', (f, envs') ∈ rest ∧ e ∈ dom envs')).
    { destruct (list_exist_dec
                  (λ p : string * gmap string string, p.1 = f ∧ e ∈ dom p.2)
                  rest _) as [H|H].
      - left. destruct H as ([f' envs'] & Hin & Hfe & He). cbn in Hfe, He.
        subst f'. eauto.
      - right. intros (envs' & Hin & He). apply H. exists (f, envs'). eauto. }
    split.
    + intros [(envs' & Hin & He) Hcfg].
      destruct Hdec as [Hrest|Hrest]; [by apply Ha|].
      rewrite Hb by tauto.
      apply elem_of_cons in Hin as [[= -> ->]|Hin]; [|by destruct Hrest; eauto].
      apply Ha1. by rewrite elem_of_range_keys.
    + intros Hn. rewrite Hb, Hb1; [done| |].
      * intros (-> & Hin & Hcfg). apply Hn. split; [|done].
        exists envs. split; [left|]. by apply elem_of_range_keys.
      * intros [(envs' & Hin & He) Hcfg]. apply Hn. split; [|done].
        exists envs'. split; [by right|done].
Qed.

Lemma configured_dec envname : Decision (configured clients envname).
Proof. unfold configured. apply list_exist_dec. intros c. apply _. Qed.

End PruneEnvironments.


(** C3 (amended). With a usable store that [local] mirrors, [prune]
    succeeds, and an entry [(filename, environment)] of [local] is still
    there afterwards, with its token, if and only if the remote map
    contains the filename or a configured environment has a file that is
    not a directory at that path under its directory, and moreover the
    entry's environment is one of the configured ones.  [prune] adds no
    entry. *)
Theorem prune_spec (file_on_disk : string → string → bool)
    (clients : list ThemeClient) (m : fileManifest) :
  YStore.fault (store m) = None →
  local m = YStore.data (store m) →
  let after := prune file_on_disk clients m in
  after.2 = None
  ∧ (∀ f e v, cell (local m) f e = Some v →
       (cell (local after.1) f e = Some v ↔
        (is_Some (remote m !! f) ∨ on_some_disk file_on_disk clients f)
        ∧ configured clients e))
  ∧ (∀ f e v, cell (local after.1) f e = Some v → cell (local m) f e = Some v).
Proof.
  intros Hf Hmirror after. unfold after, prune.
  destruct (prune_files_cells file_on_disk clients (remote m)
              (map_to_list (local m)) (store m) Hf) as (s1 & -> & Hf1 & Hc1).
  destruct (prune_environments_cells clients (map_to_list (local m)) s1 Hf1)
    as (s2 & -> & Hf2 & Hc2).
  unfold reload, YStore.Dump. cbn [with_store store]. rewrite Hf2.
  cbn [fst snd with_local local]. split; [done|].
  assert (Hvisit : ∀ f e v, cell (local m) f e = Some v →
            f ∈ (map_to_list (local m)).*1
            ∧ ∃ envs, (f, envs) ∈ map_to_list (local m) ∧ e ∈ dom envs).
  { intros f e v Hv. unfold cell in Hv.
    destruct (local m !! f) as [envs|] eqn:Hl; [|done]. cbn in Hv.
    assert ((f, envs) ∈ map_to_list (local m)) by by apply elem_of_map_to_list.
    split.
    - apply list_elem_of_fmap. by exists (f, envs).
    - exists envs. split; [done|]. apply elem_of_dom. by exists v. }
  split.
  - intros f e v Hv. destruct (Hvisit f e v Hv) as [Hin Hent].
    destruct (Hc1 f e) as [Ha1 Hb1]. destruct (Hc2 f e) as [Ha2 Hb2].
    rewrite Hmirror in Hv.
    destruct (configured_dec clients e) as [Hcfg|Hcfg].
    + rewrite Hb2 by tauto.
      destruct (remote m !! f) as [r|] eqn:Hr.
      * rewrite Hb1 by (intros (_ & ? & _); congruence).
        split; [intros _|done]. split; [left; by eexists | done].
      * destruct (on_some_disk_dec file_on_disk clients f) as [Hd|Hd].
        -- rewrite Hb1 by tauto. split; [intros _|done]. split; [by right|done].
        -- rewrite Ha1 by done. split; [done|].
           intros [[[? [=]]|?] _]. done.
    + rewrite Ha2 by done. split; [done|]. intros [_ ?]. done.
  - intros f e v Hv. rewrite Hmirror.
    destruct (Hc1 f e) as [Ha1 Hb1]. destruct (Hc2 f e) as [Ha2 Hb2].
    destruct (configured_dec clients e) as [Hcfg|Hcfg].
    + rewrite Hb2 in Hv by tauto.
      destruct (remote m !! f) as [r|] eqn:Hr.
      * by rewrite Hb1 in Hv by (intros (_ & ? & _); congruence).
      * destruct (on_some_disk_dec file_on_disk clients f) as [Hd|Hd].
        -- by rewrite Hb1 in Hv by tauto.
        -- destruct (decide (f ∈ (map_to_list (local m)).*1)) as [Hin|Hin].
           ++ by rewrite Ha1 in Hv.
           ++ by rewrite Hb1 in Hv by tauto.
    + assert (Hdec : Decision (∃ envs, (f, envs) ∈ map_to_list (local m) ∧ e ∈ dom envs)).
      { destruct (list_exist_dec
                    (λ p : string * gmap string string, p.1 = f ∧ e ∈ dom p.2)
                    (map_to_list (local m)) _) as [H|H].
        - left. destruct H as ([f' envs'] & Hin & Hfe & He). cbn in Hfe, He.
          subst f'. eauto.
        - right. intros (envs' & Hin & He). apply H. exists (f, envs'). eauto. }
      destruct Hdec as [Hent|Hent].
      * by rewrite Ha2 in Hv.
      * rewrite Hb2 in Hv by tauto.
        destruct (remote m !! f) as [r|] eqn:Hr.
        -- by rewrite Hb1 in Hv by (intros (_ & ? & _); congruence).
        -- destruct (on_some_disk_dec file_on_disk clients f) as [Hd|Hd].
           ++ by rewrite Hb1 in Hv by tauto.
           ++ destruct (decide (f ∈ (map_to_list (local m)).*1)) as [Hin|Hin].
              ** by rewrite Ha1 in Hv.
              ** by rewrite Hb1 in Hv by tauto.
Qed.

(** C3 (amended), at [two_envs] with [dev] as the only configured
    environment and nothing on disk: the [dev] entry of [a.liquid] is
    kept. *)
Lemma prune_spec_witness :
  cell (local (prune empty_disk [dev_client] two_envs).1) "a.liquid" "dev"
    = Some "2021-01-01T00:00:00Z".
Proof.
  destruct (prune_spec empty_disk [dev_client] two_envs eq_refl eq_refl)
    as (_ & Hkeep & _).
  apply (Hkeep "a.liquid" "dev" "2021-01-01T00:00:00Z").
  - vm_compute. reflexivity.
  - split.
    + left. vm_compute. by eexists.
    + exists dev_client. split; [left | reflexivity].
Defined.

(** C3 as stated fails: the remote map contains [a.liquid], yet its
    entry for [staging], an environment that is not configured, is gone
    after [prune]. *)
Lemma prune_drops_unconfigured_environment :
  cell (local two_envs) "a.liquid" "staging" = Some "2021-01-01T00:00:00Z"
  ∧ ¬ (is_Some (cell (local (prune empty_disk [dev_client] two_envs).1)
                  "a.liquid" "staging")
       ↔ is_Some (remote two_envs !! "a.liquid")
         ∨ on_some_disk empty_disk [dev_client] "a.liquid").
Proof.
  split; [vm_compute; reflexivity|].
  intros [_ H].
  assert (Hin : is_Some (remote two_envs !! "a.liquid")) by (vm_compute; by eexists).
  specialize (H (or_introl Hin)). vm_compute in H. by destruct H.
Qed.

(** ** The replace command *)

Section ActionMaps.

Lemma elem_of_range_values {V : Type} (m : gmap string V) (v : V) :
  v ∈ range_values m ↔ ∃ k, m !! k = Some v.
Proof.
  unfold range_values. rewrite list_elem_of_fmap. split.
  - intros ([k v'] & -> & Hin). exists k. by apply elem_of_map_to_list.
  - intros [k Hk]. exists (k, v). split; [done|]. by apply elem_of_map_to_list.
Qed.

Lemma keyed_range_keys (actions : gmap string AssetEvent) :
  keyed actions → event_key <$> range_values actions = range_keys actions.
Proof.
  intros Hk. unfold range_values, range_keys.
  rewrite <- list_fmap_compose. apply Forall_fmap_ext, Forall_forall.
  intros [k ev] Hin%elem_of_map_to_list. cbn. by apply Hk.
Qed.

Lemma keyed_NoDup (actions : gmap string AssetEvent) :
  keyed actions → NoDup (event_key <$> range_values actions).
Proof. intros Hk. rewrite keyed_range_keys by done. apply NoDup_range_keys. Qed.

(** Filing one event per asset of a list, later assets over earlier
    ones. *)
Lemma foldl_file_lookup (mk : Asset → AssetEvent) (assets : list Asset)
    (actions : gmap string AssetEvent) (k : string) :
  let actions' := foldl (λ acc asset, <[Key asset := mk asset]> acc) actions assets in
  (k ∉ Key <$> assets → actions' !! k = actions !! k)
  ∧ (k ∈ Key <$> assets →
     ∃ asset, asset ∈ assets ∧ Key asset = k ∧ actions' !! k = Some (mk asset)).
Proof.
  revert actions. induction assets as [|a rest IH]; intros actions actions'.
  - split; [done|]. by intros ?%elem_of_nil.
  - unfold actions'. cbn [foldl].
    destruct (IH (<[Key a := mk a]> actions)) as [Hnot Hin].
    destruct (decide (k ∈ Key <$> rest)) as [Hrest|Hrest].
    + destruct (Hin Hrest) as (a' & Ha' & Hk & Hl). split.
      * intros Hn. exfalso. apply Hn. rewrite fmap_cons. by right.
      * intros _. exists a'. split; [by right|done].
    + rewrite (Hnot Hrest). split.
      * intros Hn. apply lookup_insert_ne. intros Heq. apply Hn.
        rewrite fmap_cons, Heq. left.
      * rewrite fmap_cons. intros [->|?]%elem_of_cons; [|done].
        exists a. split; [left|]. split; [done|]. apply lookup_insert_eq.
Qed.

End ActionMaps.

Section RemoveAndUpload.

Lemma removeAndUpload_flat (assets : list Asset) (assetEvents : list AssetEvent) :
  removeAndUpload assets assetEvents =
    assetEvents
    ++ flat_map (λ asset, [NewRemovalEvent asset; NewUploadEvent asset]) assets.
Proof.
  revert assetEvents. induction assets as [|a rest IH]; intros assetEvents; cbn.
  - by rewrite app_nil_r.
  - by rewrite IH, <- app_assoc.
Qed.

(** The [i]-th asset's Removal is the event number [2 i] and its Upload
    the event number [2 i + 1]. *)
Lemma removeAndUpload_order (assets : list Asset) (i : nat) (asset : Asset) :
  assets !! i = Some asset →
  removeAndUpload assets [] !! (2 * i) = Some (NewRemovalEvent asset)
  ∧ removeAndUpload assets [] !! (2 * i + 1) = Some (NewUploadEvent asset).
Proof.
  rewrite removeAndUpload_flat. cbn [app].
  revert i. induction assets as [|a rest IH]; intros i Hi; [done|].
  destruct i as [|i].
  - injection Hi as ->. done.
  - replace (2 * S i) with (S (S (2 * i))) by lia. cbn. by apply IH.
Qed.

End RemoveAndUpload.

Section ReplaceEverything.

Variable IsValid : Asset → bool.

(** C8. In a replace with no filenames, where the remote listing is
    [R] and the local listing is [L], the queue holds a Removal for the
    keys of [R] that are not keys of [L] and an Upload for the keys of
    [L], one event per key and nothing else; a Removal and an Upload of
    one key are therefore never both queued, so that whenever both are,
    the Removal comes first.  In the pipeline that queues both for an
    asset, [removeAndUpload], the Removal is sent right before the
    Upload. *)
Theorem replace_everything (client : ThemeClient) (R L : list Asset) :
  AssetList client = (R, None) →
  LocalAssets client = (L, None) →
  let queue := (replace IsValid client []).1 in
  (replace IsValid client []).2 = None
  ∧ (∀ ev, ev ∈ queue →
       (event_type ev = Remove ∧ event_asset ev ∈ R
        ∧ event_key ev ∉ Key <$> L)
       ∨ (event_type ev = Update ∧ event_asset ev ∈ L))
  ∧ (∀ k, k ∈ Key <$> L →
       ∃ ev, ev ∈ queue ∧ event_key ev = k ∧ event_type ev = Update)
  ∧ (∀ k, k ∈ Key <$> R → k ∉ Key <$> L →
       ∃ ev, ev ∈ queue ∧ event_key ev = k ∧ event_type ev = Remove)
  ∧ NoDup (event_key <$> queue)
  ∧ (∀ i j removal upload,
       queue !! i = Some removal → queue !! j = Some upload →
       event_type removal = Remove → event_type upload = Update →
       event_key removal = event_key upload → i < j)
  ∧ (∀ assets i asset,
       assets !! i = Some asset →
       removeAndUpload assets [] !! (2 * i) = Some (NewRemovalEvent asset)
       ∧ removeAndUpload assets [] !! (2 * i + 1) = Some (NewUploadEvent asset)).
Proof.
  intros HR HL queue.
  pose (removals := foldl (λ acc asset, <[Key asset := NewRemovalEvent asset]> acc)
                      (∅ : gmap string AssetEvent) R).
  pose (actions := foldl (λ acc asset, <[Key asset := NewUploadEvent asset]> acc)
                     removals L).
  assert (Hrun : replace IsValid client [] = (range_values actions, None)).
  { unfold replace. change (Z.of_nat (length (@nil string)) =? 0)%Z with true.
    cbv iota. by rewrite HR, HL. }
  unfold queue. rewrite Hrun. cbn [fst snd].
  assert (Hlook : ∀ k ev, actions !! k = Some ev →
            (ev ∈ NewUploadEvent <$> L ∧ event_key ev = k)
            ∨ ((k ∉ Key <$> L) ∧ ev ∈ NewRemovalEvent <$> R ∧ event_key ev = k)).
  { intros k ev Hev.
    destruct (foldl_file_lookup NewUploadEvent L removals k) as [Hnot Hin].
    fold actions in Hnot, Hin.
    destruct (decide (k ∈ Key <$> L)) as [HkL|HkL].
    - destruct (Hin HkL) as (a & Ha & Hk & Hl). left.
      rewrite Hl in Hev. injection Hev as <-. split; [|done].
      apply list_elem_of_fmap. by exists a.
    - right. split; [done|]. rewrite (Hnot HkL) in Hev.
      destruct (foldl_file_lookup NewRemovalEvent R ∅ k) as [Hnot' Hin'].
      fold removals in Hnot', Hin'.
      destruct (decide (k ∈ Key <$> R)) as [HkR|HkR].
      + destruct (Hin' HkR) as (a & Ha & Hk & Hl).
        rewrite Hl in Hev. injection Hev as <-. split; [|done].
        apply list_elem_of_fmap. by exists a.
      + rewrite (Hnot' HkR), lookup_empty in Hev. done. }
  assert (Hkeyed : keyed actions).
  { intros k ev Hev. by destruct (Hlook k ev Hev) as [[_ ?]|(_ & _ & ?)]. }
  assert (Hnodup := keyed_NoDup actions Hkeyed).
  split; [done|]. split; [|split; [|split; [|split; [done|split]]]].
  - intros ev [k Hk]%elem_of_range_values.
    destruct (Hlook k ev Hk) as [[Hin Hkey]|(HkL & Hin & Hkey)].
    + right. apply list_elem_of_fmap in Hin as (a & -> & Ha). done.
    + left. apply list_elem_of_fmap in Hin as (a & -> & Ha).
      split; [done|]. split; [done|]. by rewrite Hkey.
  - intros k HkL.
    destruct (foldl_file_lookup NewUploadEvent L removals k) as [_ Hin].
    destruct (Hin HkL) as (a & Ha & Hk & Hl).
    exists (NewUploadEvent a). split; [|done].
    apply elem_of_range_values. by exists k.
  - intros k HkR HkL.
    destruct (foldl_file_lookup NewUploadEvent L removals k) as [Hnot _].
    destruct (foldl_file_lookup NewRemovalEvent R ∅ k) as [_ Hin].
    destruct (Hin HkR) as (a & Ha & Hk & Hl).
    exists (NewRemovalEvent a). split; [|done].
    apply elem_of_range_values. exists k.
    fold actions in Hnot. fold removals in Hl. by rewrite (Hnot HkL).
  - intros i j removal upload Hi Hj Hr Hu Hkey.
    assert (i = j) as ->.
    { eapply NoDup_lookup; [exact Hnodup| |].
      - rewrite list_lookup_fmap, Hi. done.
      - rewrite list_lookup_fmap, Hj. cbn. by rewrite Hkey. }
    rewrite Hi in Hj. injection Hj as ->. congruence.
  - intros assets i asset. apply removeAndUpload_order.
Qed.

End ReplaceEverything.

(** C8, at remote [{a, b}] and local [{b, c}]: [a] is removed. *)
Lemma replace_everything_witness :
  ∃ ev, ev ∈ (replace has_content ab_bc_client []).1
        ∧ event_key ev = "a" ∧ event_type ev = Remove.
Proof.
  destruct (replace_everything has_content ab_bc_client _ _ eq_refl eq_refl)
    as (_ & _ & _ & Hremove & _).
  apply Hremove.
  - vm_compute. left.
  - vm_compute. intros H.
    apply elem_of_cons in H as [H|H]; [discriminate H|].
    apply elem_of_cons in H as [H|H]; [discriminate H|].
    by apply elem_of_nil in H.
Defined.

Section ReplaceSelective.

Variable IsValid : Asset → bool.
Variable client : ThemeClient.

Lemma replace_named_ok filenames (actions : gmap string AssetEvent) :
  (∀ f, f ∈ filenames → (LocalAsset client f).2 = None) →
  ∃ actions',
    replace_named IsValid client filenames actions = (actions', None)
    ∧ (∀ k ev, actions' !! k = Some ev →
         actions !! k = Some ev
         ∨ ∃ f, f ∈ filenames ∧ resolves IsValid client f
                ∧ ev = NewUploadEvent (LocalAsset client f).1
                ∧ Key (LocalAsset client f).1 = k)
    ∧ (∀ k, is_Some (actions !! k) → is_Some (actions' !! k))
    ∧ (∀ f, f ∈ filenames → resolves IsValid client f →
         is_Some (actions' !! Key (LocalAsset client f).1)).
Proof.
  revert actions. induction filenames as [|filename rest IH]; intros actions Hok.
  - exists actions. split; [done|]. split; [by left|]. split; [done|].
    by intros f ?%elem_of_nil.
  - cbn [replace_named].
    assert (Hhead := Hok filename ltac:(left)).
    assert (Hrest : ∀ f, f ∈ rest → (LocalAsset client f).2 = None)
      by (intros f Hf; apply Hok; by right).
    destruct (LocalAsset client filename) as [asset err] eqn:Hla.
    cbn in Hhead. subst err.
    destruct (IsValid asset) eqn:Hv.
    + destruct (IH (<[Key asset := NewUploadEvent asset]> actions) Hrest)
        as (actions' & -> & Hfrom & Hmono & Hall).
      exists actions'. split; [done|]. split; [|split].
      * intros k ev Hev. destruct (Hfrom k ev Hev) as [Hins|(f & Hf & Hrf & -> & Hk)].
        -- destruct (decide (Key asset = k)) as [<-|Hne].
           ++ rewrite lookup_insert_eq in Hins. injection Hins as <-.
              right. exists filename. unfold resolves. rewrite Hla.
              split; [left|done].
           ++ rewrite lookup_insert_ne in Hins by done. by left.
        -- right. exists f. split; [by right|done].
      * intros k Hk. apply Hmono.
        destruct (decide (Key asset = k)) as [<-|Hne].
        -- rewrite lookup_insert_eq. by eexists.
        -- by rewrite lookup_insert_ne.
      * intros f [->|Hf]%elem_of_cons Hrf; [|by apply Hall].
        rewrite Hla. cbn. apply Hmono. rewrite lookup_insert_eq. by eexists.
    + destruct (IH actions Hrest) as (actions' & -> & Hfrom & Hmono & Hall).
      exists actions'. split; [done|]. split; [|split; [done|]].
      * intros k ev Hev. destruct (Hfrom k ev Hev) as [?|(f & Hf & Hrest')];
          [by left|].
        right. exists f. split; [by right|done].
      * intros f [->|Hf]%elem_of_cons Hrf; [|by apply Hall].
        destruct Hrf as [_ Hrf]. rewrite Hla in Hrf. cbn in Hrf. congruence.
Qed.

Lemma replace_named_err before filename after e (actions : gmap string AssetEvent) :
  (∀ f, f ∈ before → (LocalAsset client f).2 = None) →
  (LocalAsset client filename).2 = Some e →
  (replace_named IsValid client (before ++ filename :: after) actions).2 = Some e.
Proof.
  revert actions. induction before as [|f before IH]; intros actions Hok Herr.
  - cbn. destruct (LocalAsset client filename) as [asset err]. cbn in Herr.
    by subst err.
  - cbn [app replace_named].
    assert (Hhead := Hok f ltac:(left)).
    destruct (LocalAsset client f) as [asset err]. cbn in Hhead. subst err.
    destruct (IsValid asset); apply IH; try done; intros g Hg; apply Hok; by right.
Qed.

(** C2 (amended). In a replace with a non-empty list of filenames: when
    every lookup of a local asset succeeds, [replace] returns no error
    and queues Upload events only, each for a filename that resolves to
    a valid asset, one per asset key, and one for every such filename;
    a filename whose asset is invalid is skipped and the run
    continues.  When a lookup fails, [replace] returns the error of the
    first lookup that fails and queues nothing. *)
Theorem replace_selective (filename : string) (rest : list string) :
  let filenames := filename :: rest in
  let run := replace IsValid client filenames in
  ((∀ f, f ∈ filenames → (LocalAsset client f).2 = None) →
   run.2 = None
   ∧ (∀ ev, ev ∈ run.1 →
        ∃ f, f ∈ filenames ∧ resolves IsValid client f
             ∧ ev = NewUploadEvent (LocalAsset client f).1)
   ∧ (∀ f, f ∈ filenames → resolves IsValid client f →
        ∃ ev, ev ∈ run.1 ∧ event_type ev = Update
              ∧ event_key ev = Key (LocalAsset client f).1)
   ∧ NoDup (event_key <$> run.1))
  ∧ (∀ before failing after e,
       filenames = before ++ failing :: after →
       (∀ f, f ∈ before → (LocalAsset client f).2 = None) →
       (LocalAsset client failing).2 = Some e →
       run = ([], Some e)).
Proof.
  intros filenames run. unfold run, replace.
  replace (Z.of_nat (length filenames) =? 0)%Z with false
    by (symmetry; apply Z.eqb_neq; unfold filenames; cbn [length]; lia).
  split.
  - intros Hok.
    destruct (replace_named_ok filenames ∅ Hok) as (actions & -> & Hfrom & _ & Hall).
    cbn [fst snd].
    assert (Hup : ∀ k ev, actions !! k = Some ev →
              ∃ f, f ∈ filenames ∧ resolves IsValid client f
                   ∧ ev = NewUploadEvent (LocalAsset client f).1
                   ∧ Key (LocalAsset client f).1 = k).
    { intros k ev Hev. destruct (Hfrom k ev Hev) as [Hemp|?]; [|done].
      by rewrite lookup_empty in Hemp. }
    split; [done|]. split; [|split].
    + intros ev [k Hk]%elem_of_range_values.
      destruct (Hup k ev Hk) as (f & Hf & Hrf & -> & _). by exists f.
    + intros f Hf Hrf. destruct (Hall f Hf Hrf) as [ev Hev].
      exists ev. split; [apply elem_of_range_values; by eexists|].
      destruct (Hup _ ev Hev) as (g & _ & _ & -> & Hk). done.
    + apply keyed_NoDup. intros k ev Hev.
      destruct (Hup k ev Hev) as (g & _ & _ & -> & Hk). done.
  - intros before failing after e -> Hok Herr.
    assert (H := replace_named_err before failing after e ∅ Hok Herr).
    destruct (replace_named IsValid client (before ++ failing :: after) ∅)
      as [actions err]. cbn in H. by subst err.
Qed.

End ReplaceSelective.

(** C2 (amended), at a run that names a file with content and an empty
    one, and at a run that names a file that cannot be read. *)
Lemma replace_selective_witness :
  (replace has_content ab_bc_client ["b"; "empty.liquid"]).2 = None
  ∧ replace has_content ab_bc_client ["b"; "missing.liquid"; "c"]
    = ([], Some (Errorf "open missing.liquid: no such file")).
Proof.
  split.
  - apply (proj1 (replace_selective has_content ab_bc_client "b" ["empty.liquid"])).
    intros f Hf.
    apply elem_of_cons in Hf as [->|Hf]; [reflexivity|].
    apply list_elem_of_singleton in Hf as ->. reflexivity.
  - apply (proj2 (replace_selective has_content ab_bc_client "b" ["missing.liquid"; "c"])
             ["b"] "missing.liquid" ["c"]).
    + reflexivity.
    + intros f Hf. apply list_elem_of_singleton in Hf as ->. reflexivity.
    + reflexivity.
Defined.

(** C2 as stated fails: [missing.liquid] cannot be read and [c] resolves
    to a valid asset, yet the run returns an error and queues no Upload
    of [c]. *)
Lemma replace_aborts_on_failed_lookup :
  let filenames := ["missing.liquid"; "c"] in
  let run := replace has_content ab_bc_client filenames in
  ¬ (run.2 = None
     ∧ ∀ f, f ∈ filenames → resolves has_content ab_bc_client f →
            NewUploadEvent (LocalAsset ab_bc_client f).1 ∈ run.1).
Proof.
  intros filenames run [Herr _]. vm_compute in Herr. discriminate Herr.
Qed.

(** ** The upload command on a read-only environment *)

(** C10. For a client whose configuration is read-only, whatever the
    filenames: the main upload pass prints the filenames, logs an error
    and returns without starting any upload; the settings-data pass does
    nothing; no remote asset is changed by either. *)
Theorem upload_readonly (client : ThemeClient) (filenames : list string) :
  ReadOnly (Config client) = true →
  upload client filenames =
    [Println filenames;
     LogErrorf "[%s]environment is reaonly" [Str (Environment (Config client))];
     WaitGroupDone]
  ∧ uploadSettingsData client filenames = []
  ∧ mutations_of (upload client filenames ++ uploadSettingsData client filenames) = [].
Proof.
  intros Hro.
  assert (Hup : upload client filenames =
    [Println filenames;
     LogErrorf "[%s]environment is reaonly" [Str (Environment (Config client))];
     WaitGroupDone]) by (unfold upload; by rewrite Hro).
  assert (Hsd : uploadSettingsData client filenames = [])
    by (unfold uploadSettingsData; by rewrite Hro).
  split; [done|]. split; [done|]. by rewrite Hup, Hsd.
Qed.

(** C10, at a read-only client asked for the settings data and one more
    file; the same request on a writable client changes both remote
    assets. *)
Lemma upload_readonly_witness :
  mutations_of (upload readonly_client [settingsDataKey; "b"]
                ++ uploadSettingsData readonly_client [settingsDataKey; "b"]) = [].
Proof.
  apply (upload_readonly readonly_client [settingsDataKey; "b"]). reflexivity.
Defined.

Example upload_writable :
  mutations_of (upload ab_bc_client [settingsDataKey; "b"]
                ++ uploadSettingsData ab_bc_client [settingsDataKey; "b"])
  = [mkAsset "b" "<content>" ""; mkAsset settingsDataKey "<content>" ""].
Proof. vm_compute. reflexivity. Qed.

(** ** [generateRemote] *)

Section GenerateRemote.

Variable clients : list ThemeClient.

Lemma assign2_cell (m : nested) f e v f' e' :
  cell (assign2 m f e v) f' e' =
    if decide (f = f' ∧ e = e') then Some v else cell m f' e'.
Proof.
  unfold cell, assign2.
  destruct (decide (f = f')) as [<-|Hf].
  - rewrite lookup_insert_eq. cbn.
    destruct (decide (e = e')) as [<-|He].
    + rewrite decide_True by done. apply lookup_insert_eq.
    + rewrite decide_False by tauto. rewrite lookup_insert_ne by done.
      destruct (m !! f) as [envs|] eqn:Hm; cbn.
      * by rewrite Hm.
      * by rewrite lookup_insert_eq.
  - rewrite decide_False by tauto. rewrite lookup_insert_ne by done.
    destruct (m !! f); [done|]. by rewrite lookup_insert_ne.
Qed.

Lemma reported_assign2 (m : nested) f e v client a :
  reported m client a → reported (assign2 m f e v) client a.
Proof.
  unfold reported. rewrite assign2_cell. by case_decide.
Qed.

Lemma head_omap_snoc (l : list nat) (i : nat) :
  head (omap (listing_error clients) (l ++ [i])) =
    match head (omap (listing_error clients) l) with
    | Some e => Some e
    | None => listing_error clients i
    end.
Proof.
  rewrite omap_app. cbn.
  destruct (omap (listing_error clients) l) as [|e l']; cbn; [|done].
  by destruct (listing_error clients i).
Qed.

Lemma launch_inv : group_inv clients (launch clients).
Proof.
  split; cbn.
  - apply length_replicate.
  - done.
  - intros i. split; [by intros ?%elem_of_nil|].
    intros [err Hq]. apply lookup_replicate in Hq as [? _]. done.
  - constructor.
  - intros i client rest _ Hq. apply lookup_replicate in Hq as [? _]. done.
  - intros i client err _ Hq. apply lookup_replicate in Hq as [? _]. done.
  - intros k e v Hc. unfold cell in Hc. by rewrite lookup_empty in Hc.
Qed.

(** A step of goroutine [i] leaves the other goroutines where they
    are. *)
Lemma query_step_queries (i : nat) (g g' : group) :
  query_step clients i g = Some g' →
  ∃ q, queries g' = <[i := q]> (queries g).
Proof.
  unfold query_step.
  destruct (clients !! i) as [client|]; [|done].
  destruct (queries g !! i) as [[|[|asset rest]|err]|]; try done.
  - destruct (AssetList client) as [assets [e|]]; intros [= <-]; by eexists.
  - intros [= <-]. by eexists.
  - intros [= <-]. by eexists.
Qed.

Lemma query_step_inv (i : nat) (g g' : group) :
  query_step clients i g = Some g' → group_inv clients g → group_inv clients g'.
Proof.
  intros Hstep [Hlen Herr Hfin Honce Hmerge Hret Hsrc].
  unfold query_step in Hstep.
  destruct (clients !! i) as [client|] eqn:Hc; [|done].
  assert (Hi : i < length (queries g))
    by (rewrite Hlen; by eapply lookup_lt_Some).
  assert (Hnotfin : ∀ q, queries g !! i = Some q → is_returned q = false →
                         i ∉ finished g).
  { intros q Hq Hr [err Hq']%Hfin. rewrite Hq in Hq'. injection Hq' as ->. done. }
  assert (Hle : listing_error clients i = (AssetList client).2)
    by (unfold listing_error; by rewrite Hc).
  destruct (queries g !! i) as [[|[|asset rest]|err]|] eqn:Hq; try done.
  - (* the listing answers *)
    destruct (AssetList client) as [assets [e|]] eqn:Hal; injection Hstep as <-.
    + split; cbn.
      * by rewrite length_insert.
      * rewrite head_omap_snoc, <- Herr, Hle. by destruct (first_error g).
      * intros j. rewrite elem_of_app, list_elem_of_singleton, Hfin.
        destruct (decide (j = i)) as [->|Hne].
        -- rewrite list_lookup_insert_eq by done. split; eauto.
        -- rewrite list_lookup_insert_ne by done. split; [|by left].
           intros [?|?]; done.
      * apply NoDup_app. split; [done|]. split; [|apply NoDup_singleton].
        intros j Hj ->%list_elem_of_singleton. by eapply Hnotfin.
      * intros j c rest Hcj Hqj. destruct (decide (j = i)) as [->|Hne].
        -- rewrite list_lookup_insert_eq in Hqj by done. done.
        -- rewrite list_lookup_insert_ne in Hqj by done. by eapply Hmerge.
      * intros j c err Hcj Hqj. destruct (decide (j = i)) as [->|Hne].
        -- rewrite list_lookup_insert_eq in Hqj by done. injection Hqj as <-.
           rewrite Hc in Hcj. injection Hcj as <-. rewrite Hal. done.
        -- rewrite list_lookup_insert_ne in Hqj by done. by eapply Hret.
      * done.
    + split; cbn; try done.
      * by rewrite length_insert.
      * intros j. rewrite Hfin. destruct (decide (j = i)) as [->|Hne].
        -- rewrite list_lookup_insert_eq by done. rewrite Hq.
           split; intros [? [=]].
        -- by rewrite list_lookup_insert_ne by done.
      * intros j c rest Hcj Hqj. destruct (decide (j = i)) as [->|Hne].
        -- rewrite list_lookup_insert_eq in Hqj by done. injection Hqj as <-.
           rewrite Hc in Hcj. injection Hcj as <-. rewrite Hal.
           split; [done|]. exists []. split; [done|]. by intros a ?%elem_of_nil.
        -- rewrite list_lookup_insert_ne in Hqj by done. by eapply Hmerge.
      * intros j c err Hcj Hqj. destruct (decide (j = i)) as [->|Hne].
        -- rewrite list_lookup_insert_eq in Hqj by done. done.
        -- rewrite list_lookup_insert_ne in Hqj by done. by eapply Hret.
  - (* the return after the last asset *)
    injection Hstep as <-.
    destruct (Hmerge i client [] Hc Hq) as (Hok & merged & Hall & Hrep).
    rewrite app_nil_r in Hall. subst merged.
    split; cbn.
    + by rewrite length_insert.
    + rewrite head_omap_snoc, <- Herr, Hle, Hok. by destruct (first_error g).
    + intros j. rewrite elem_of_app, list_elem_of_singleton, Hfin.
      destruct (decide (j = i)) as [->|Hne].
      * rewrite list_lookup_insert_eq by done. split; eauto.
      * rewrite list_lookup_insert_ne by done. split; [|by left].
        intros [?|?]; done.
    + apply NoDup_app. split; [done|]. split; [|apply NoDup_singleton].
      intros j Hj ->%list_elem_of_singleton. by eapply Hnotfin.
    + intros j c rest Hcj Hqj. destruct (decide (j = i)) as [->|Hne].
      * rewrite list_lookup_insert_eq in Hqj by done. done.
      * rewrite list_lookup_insert_ne in Hqj by done. by eapply Hmerge.
    + intros j c err Hcj Hqj. destruct (decide (j = i)) as [->|Hne].
      * rewrite list_lookup_insert_eq in Hqj by done. injection Hqj as <-.
        rewrite Hc in Hcj. injection Hcj as <-. done.
      * rewrite list_lookup_insert_ne in Hqj by done. by eapply Hret.
    + done.
  - (* one asset is merged *)
    injection Hstep as <-.
    destruct (Hmerge i client (asset :: rest) Hc Hq) as (Hok & merged & Hall & Hrep).
    split; cbn; try done.
    + by rewrite length_insert.
    + intros j. rewrite Hfin. destruct (decide (j = i)) as [->|Hne].
      * rewrite list_lookup_insert_eq by done. rewrite Hq.
        split; intros [? [=]].
      * by rewrite list_lookup_insert_ne by done.
    + intros j c rest' Hcj Hqj. destruct (decide (j = i)) as [->|Hne].
      * rewrite list_lookup_insert_eq in Hqj by done. injection Hqj as <-.
        rewrite Hc in Hcj. injection Hcj as <-. split; [done|].
        exists (merged ++ [asset]). rewrite <- app_assoc. split; [done|].
        intros a [Ha| ->%list_elem_of_singleton]%elem_of_app.
        -- by apply reported_assign2, Hrep.
        -- unfold reported. rewrite assign2_cell, decide_True by done. by eexists.
      * rewrite list_lookup_insert_ne in Hqj by done.
        destruct (Hmerge j c rest' Hcj Hqj) as (Hok' & merged' & Hall' & Hrep').
        split; [done|]. exists merged'. split; [done|].
        intros a Ha. by apply reported_assign2, Hrep'.
    + intros j c err Hcj Hqj. destruct (decide (j = i)) as [->|Hne].
      * rewrite list_lookup_insert_eq in Hqj by done. done.
      * rewrite list_lookup_insert_ne in Hqj by done.
        destruct (Hret j c err Hcj Hqj) as [Herr' Hrep']. split; [done|].
        intros He a Ha. by apply reported_assign2, Hrep'.
    + intros k e v. rewrite assign2_cell. case_decide as Hke.
      * destruct Hke as [<- <-]. intros [= <-].
        exists client, asset. split; [by eapply list_elem_of_lookup_2|].
        split; [done|]. split; [|done].
        rewrite Hall. apply elem_of_app. right. left.
      * apply Hsrc.
Qed.

Lemma run_inv (schedule : list nat) (g : group) :
  group_inv clients g → group_inv clients (run clients schedule g).
Proof.
  revert g. induction schedule as [|i schedule IH]; intros g Hinv; [done|].
  cbn. apply IH. destruct (query_step clients i g) as [g'|] eqn:Hs; [|done].
  by eapply query_step_inv.
Qed.

Lemma run_app (schedule more : list nat) (g : group) :
  run clients (schedule ++ more) g = run clients more (run clients schedule g).
Proof. unfold run. apply foldl_app. Qed.

Lemma run_replicate_S (k i : nat) (g : group) :
  run clients (replicate (S k) i) g =
    run clients (replicate k i) (default g (query_step clients i g)).
Proof. done. Qed.

(** A goroutine that has returned stays so, whatever runs next. *)
Lemma returned_stable (schedule : list nat) (g : group) (j : nat) err :
  queries g !! j = Some (Returned err) →
  queries (run clients schedule g) !! j = Some (Returned err).
Proof.
  revert g. induction schedule as [|i schedule IH]; intros g Hq; [done|].
  cbn. apply IH. destruct (query_step clients i g) as [g'|] eqn:Hs; [|done].
  cbn. destruct (decide (i = j)) as [->|Hne].
  - unfold query_step in Hs. rewrite Hq in Hs. by destruct (clients !! j).
  - destruct (query_step_queries i g g' Hs) as [q ->].
    by rewrite list_lookup_insert_ne.
Qed.

Lemma merging_returns (i : nat) (client : ThemeClient) (rest : list Asset) (g : group) :
  clients !! i = Some client →
  queries g !! i = Some (Merging rest) →
  ∃ err, queries (run clients (replicate (S (length rest)) i) g) !! i
         = Some (Returned err).
Proof.
  intros Hc. revert g. induction rest as [|asset rest IH]; intros g Hq.
  - exists None. cbn. unfold query_step. rewrite Hc, Hq. cbn.
    apply list_lookup_insert_eq. by eapply lookup_lt_Some.
  - cbn [length]. rewrite run_replicate_S. apply IH.
    unfold query_step. rewrite Hc, Hq. cbn.
    apply list_lookup_insert_eq. by eapply lookup_lt_Some.
Qed.

(** Left to itself, a goroutine returns. *)
Lemma query_returns (i : nat) (g : group) :
  i < length clients → length (queries g) = length clients →
  ∃ k err, queries (run clients (replicate k i) g) !! i = Some (Returned err).
Proof.
  intros Hi Hlen.
  destruct (lookup_lt_is_Some_2 clients i Hi) as [client Hc].
  destruct (lookup_lt_is_Some_2 (queries g) i ltac:(by rewrite Hlen)) as [q Hq].
  destruct q as [|rest|err].
  - destruct (AssetList client) as [assets [e|]] eqn:Hal.
    + exists 1, (Some e). cbn. unfold query_step. rewrite Hc, Hq, Hal. cbn.
      apply list_lookup_insert_eq. by eapply lookup_lt_Some.
    + destruct (merging_returns i client assets
                  (mkGroup (<[i := Merging assets]> (queries g)) (remote_map g)
                     (first_error g) (finished g)) Hc) as [err Herr].
      { cbn. apply list_lookup_insert_eq. by eapply lookup_lt_Some. }
      exists (S (S (length assets))), err. rewrite run_replicate_S.
      unfold query_step at 1. rewrite Hc, Hq, Hal. done.
  - destruct (merging_returns i client rest g Hc Hq) as [err Herr]. by eauto.
  - exists 0, err. done.
Qed.

(** Every schedule can be continued until the goroutines named in
    [pending] have returned. *)
Lemma pending_return (pending : list nat) (g : group) :
  group_inv clients g →
  ∃ more, ∀ i, i ∈ pending → i < length clients →
               ∃ err, queries (run clients more g) !! i = Some (Returned err).
Proof.
  revert g. induction pending as [|i pending IH]; intros g Hinv.
  - exists []. by intros i ?%elem_of_nil.
  - destruct (decide (i < length clients)) as [Hi|Hi].
    + destruct (query_returns i g Hi (inv_length _ _ Hinv)) as (k & err & Hk).
      destruct (IH (run clients (replicate k i) g) (run_inv _ _ Hinv)) as [more Hmore].
      exists (replicate k i ++ more). intros j Hj Hlt. rewrite run_app.
      apply elem_of_cons in Hj as [->|Hj]; [|by apply Hmore].
      exists err. by apply returned_stable.
    + destruct (IH g Hinv) as [more Hmore]. exists more. intros j Hj Hlt.
      apply elem_of_cons in Hj as [->|Hj]; [done|]. by apply Hmore.
Qed.

Lemma all_returned (g : group) :
  forallb is_returned (queries g) = true ↔
  ∀ i, i < length (queries g) → ∃ err, queries g !! i = Some (Returned err).
Proof.
  rewrite forallb_forall. split.
  - intros H i Hi. destruct (lookup_lt_is_Some_2 _ i Hi) as [q Hq].
    assert (Hr := H q ltac:(apply list_elem_of_In; by eapply list_elem_of_lookup_2)).
    destruct q; try done. by eexists.
  - intros H q [i Hq]%list_elem_of_In%list_elem_of_lookup.
    destruct (H i (lookup_lt_Some _ _ _ Hq)) as [err Herr].
    rewrite Hq in Herr. by injection Herr as ->.
Qed.

End GenerateRemote.

(** C9. [generateRemote] starts one listing query per client and returns
    only when all of them have returned, which every schedule of the
    goroutines can be continued to reach.  When it returns, every query
    has returned exactly once; the error is that of the first query to
    return with one, in the order the queries return, and nil when none
    failed; every entry of [remote] is an asset of a listing that
    succeeded, under the environment of its client; and every asset of
    every listing that succeeded has its entry, whether or not another
    query failed. *)
Theorem generateRemote_spec (clients : list ThemeClient) (schedule : list nat)
    (m : fileManifest) :
  length (queries (launch clients)) = length clients
  ∧ (∃ more, is_Some (generateRemote clients (schedule ++ more) m))
  ∧ ∀ m' err,
      generateRemote clients schedule m = Some (m', err) →
      let order := completion_order clients schedule in
      order ≡ₚ seq 0 (length clients)
      ∧ err = head (omap (listing_error clients) order)
      ∧ (∀ k e v, cell (remote m') k e = Some v →
           ∃ client a, client ∈ clients ∧ (AssetList client).2 = None
                       ∧ a ∈ (AssetList client).1
                       ∧ Environment (Config client) = e
                       ∧ Key a = k ∧ UpdatedAt a = v)
      ∧ (∀ client a, client ∈ clients → (AssetList client).2 = None →
                     a ∈ (AssetList client).1 → reported (remote m') client a).
Proof.
  split; [apply length_replicate|]. split.
  - assert (Hinv := run_inv clients schedule _ (launch_inv clients)).
    destruct (pending_return clients (seq 0 (length clients)) _ Hinv) as [more Hmore].
    exists more. unfold generateRemote. rewrite run_app.
    assert (Hinv' := run_inv clients more _ Hinv).
    replace (forallb _ _) with true; [by eexists|]. symmetry.
    apply all_returned. intros i Hi. rewrite (inv_length _ _ Hinv') in Hi.
    apply Hmore; [|done]. apply elem_of_seq. lia.
  - intros m' err. unfold generateRemote, completion_order.
    set (g := run clients schedule (launch clients)).
    assert (Hinv : group_inv clients g) by apply run_inv, launch_inv.
    destruct (forallb is_returned (queries g)) eqn:Hall; [|done].
    intros [= <- <-]. cbn [with_remote remote].
    destruct Hinv as [Hlen Herr Hfin Honce Hmerge Hret Hsrc].
    rewrite all_returned in Hall.
    split; [|split; [done|split; [done|]]].
    + apply NoDup_Permutation; [done|apply NoDup_seq|].
      intros i. rewrite Hfin, elem_of_seq. split.
      * intros [e He]. apply lookup_lt_Some in He. lia.
      * intros Hi. apply Hall. lia.
    + intros client a [i Hc]%list_elem_of_lookup Hok Ha.
      destruct (Hall i) as [e He].
      { rewrite Hlen. by eapply lookup_lt_Some. }
      destruct (Hret i client e Hc He) as [-> Hrep]. by apply Hrep.
Qed.

(** C9, at two clients of which the second one's listing fails, under a
    schedule that lets it fail first: the error is returned, and the
    assets of the first client are in [remote] all the same. *)
Lemma generateRemote_spec_witness :
  match generateRemote [ab_bc_client; failing_client] [1; 0; 0; 0; 0] demo with
  | Some (m', err) =>
      err = Some (Errorf "listing: connection refused")
      ∧ reported (remote m') ab_bc_client (mkAsset "a" "" "2021-01-01T00:00:00Z")
  | None => False
  end.
Proof.
  destruct (generateRemote_spec [ab_bc_client; failing_client] [1; 0; 0; 0; 0] demo)
    as (_ & _ & Hspec).
  destruct (generateRemote [ab_bc_client; failing_client] [1; 0; 0; 0; 0] demo)
    as [[m' err]|] eqn:Hrun; [|vm_compute in Hrun; discriminate Hrun].
  destruct (Hspec m' err eq_refl) as (_ & Herr & _ & Hall).
  split.
  - rewrite Herr. vm_compute. reflexivity.
  - apply Hall; [left | reflexivity | left].
Defined.

(** * Further properties of the manifest *)

(** ** The write-through of the mutating operations *)

Section WriteThrough.

Lemma reload_ok (m m' : fileManifest) :
  reload m = (m', None) →
  mirrors m' ∧ store m' = store m ∧ remote m' = remote m.
Proof.
  unfold reload, YStore.Dump, mirrors.
  destruct (YStore.fault (store m)) as [msg|] eqn:Hf; [done|].
  by intros [= <-].
Qed.

Lemma Set_mirrors (m m' : fileManifest) filename environment value :
  Set_ m filename environment value = (m', None) → mirrors m'.
Proof.
  unfold Set_.
  destruct (Set_stage _ _ _ _ _) as [batch [e|]]; [done|].
  destruct (YStore.Commit _ _) as [s' [e|]]; [done|].
  by intros (? & _)%reload_ok.
Qed.

Lemma Delete_mirrors (m m' : fileManifest) filename environment :
  Delete m filename environment = (m', None) → mirrors m'.
Proof.
  unfold Delete.
  destruct (YStore.Delete _ _ _) as [s' [e|]]; [done|].
  by intros (? & _)%reload_ok.
Qed.

Lemma backfillLocal_mirrors (m m' : fileManifest) :
  backfillLocal m = (m', None) → mirrors m'.
Proof.
  unfold backfillLocal.
  destruct (backfillLocal_staged m) as [batch [e|]]; [done|].
  destruct (YStore.Commit _ _) as [s' [e|]]; [done|].
  by intros (? & _)%reload_ok.
Qed.

Lemma prune_mirrors file_on_disk clients (m m' : fileManifest) :
  prune file_on_disk clients m = (m', None) → mirrors m'.
Proof.
  unfold prune.
  destruct (prune_files _ _ _ _ _) as [s1 [e|]]; [done|].
  destruct (prune_environments _ _ _) as [s2 [e|]]; [done|].
  by intros (? & _)%reload_ok.
Qed.

End WriteThrough.

(** X1. Whenever [Set], [Delete], [backfillLocal] or [prune] returns
    without error, the store is usable and [local] is exactly its
    snapshot. *)
Theorem write_through (m m' : fileManifest) :
  (∀ filename environment value,
     Set_ m filename environment value = (m', None) → mirrors m')
  ∧ (∀ filename environment,
       Delete m filename environment = (m', None) → mirrors m')
  ∧ (backfillLocal m = (m', None) → mirrors m')
  ∧ (∀ file_on_disk clients,
       prune file_on_disk clients m = (m', None) → mirrors m').
Proof.
  split; [|split; [|split]].
  - intros ???. apply Set_mirrors.
  - intros ??. apply Delete_mirrors.
  - apply backfillLocal_mirrors.
  - intros ??. apply prune_mirrors.
Qed.

(** X1, at a ledger whose [local] is stale: a [Set] brings it back in
    line with the store. *)
Lemma write_through_witness :
  mirrors (Set_ (mkManifest demo_store ∅ ∅) "b.css" "dev" "t1").1.
Proof.
  apply (proj1 (write_through (mkManifest demo_store ∅ ∅) _) "b.css" "dev" "t1").
  vm_compute. reflexivity.
Defined.

(** ** What [Set] writes *)

Section SetWrites.

(** A cell no staged write touches keeps its content. *)
Lemma apply_batch_untouched (d : nested) (b : YStore.Batch) c k :
  (∀ x, (c, k, x) ∉ b) →
  cell (YStore.apply_batch d b) c k = cell d c k.
Proof.
  unfold cell.
  induction b as [|[[c' k'] x] b IH] using rev_ind; intros Hall; [done|].
  rewrite apply_batch_snoc, index2_put_ne.
  - apply IH. intros y Hy. apply (Hall y), elem_of_app. by left.
  - intros [= -> ->]. apply (Hall x), elem_of_app. right.
    by apply list_elem_of_singleton.
Qed.

(** The loop of [Set] stages the entries of the target environment, and
    all entries when the store answers the empty string for the
    target. *)
Lemma Set_stage_exact s filename environment entries batch :
  ∃ staged,
    Set_stage s filename environment entries batch = (batch ++ staged, None)
    ∧ ∀ c k x, (c, k, x) ∈ staged ↔
               c = filename ∧ (k, x) ∈ entries
               ∧ ((YStore.Read s filename environment).1 = "" ∨ k = environment).
Proof.
  revert batch. induction entries as [|[env version] rest IH]; intros batch.
  - exists []. rewrite app_nil_r. split; [done|]. intros c k x. split.
    + by intros ?%elem_of_nil.
    + by intros (_ & ?%elem_of_nil & _).
  - cbn [Set_stage].
    destruct (YStore.Read s filename environment) as [currentVersion err0] eqn:Hr.
    cbn [fst] in IH |- *.
    destruct (String.eqb currentVersion "" || String.eqb env environment) eqn:Hc.
    + cbn [YStore.Write].
      destruct (IH (batch ++ [(filename, env, version)])) as (staged & Heq & Hin).
      exists ((filename, env, version) :: staged).
      rewrite Heq, <- app_assoc. split; [done|].
      intros c k x. rewrite !elem_of_cons, Hin.
      apply orb_true_iff in Hc as Hc'.
      rewrite String.eqb_eq in Hc'. rewrite String.eqb_eq in Hc'. split.
      * intros [[= -> -> ->]|(-> & H & Hk)]; by eauto.
      * intros (-> & [[= -> ->]|H] & Hk); by eauto.
    + destruct (IH batch) as (staged & Heq & Hin). exists staged.
      split; [done|]. intros c k x. rewrite Hin, elem_of_cons.
      apply orb_false_iff in Hc as [Hc1 Hc2].
      apply String.eqb_neq in Hc1, Hc2. split.
      * intros (-> & H & Hk). by eauto.
      * intros (-> & [[= -> ->]|H] & [Hk|Hk]); first [done | congruence | by eauto].
Qed.

(** [Set] on a usable store: what is committed, and the state it
    leaves. *)
Lemma Set_ok (m : fileManifest) filename environment value :
  YStore.fault (store m) = None →
  let remote' := assign2 (remote m) filename environment value in
  ∃ staged,
    Set_ m filename environment value =
      (let contents := YStore.apply_batch (YStore.data (store m)) staged in
       mkManifest (YStore.mk contents (YStore.comment (store m)) None)
         contents remote', None)
    ∧ ∀ c k x, (c, k, x) ∈ staged ↔
               c = filename ∧ cell remote' filename k = Some x
               ∧ ((YStore.Read (store m) filename environment).1 = ""
                  ∨ k = environment).
Proof.
  intros Hf remote'. unfold Set_. fold (assign2 (remote m) filename environment value).
  fold remote'. cbn [with_remote store].
  destruct (Set_stage_exact (store m) filename environment
              (map_to_list (default ∅ (remote' !! filename))) YStore.NewBatch)
    as (staged & -> & Hin).
  exists staged. unfold YStore.NewBatch. cbn [app].
  unfold YStore.Commit. rewrite Hf. split; [done|].
  intros c k x. rewrite Hin, elem_of_map_to_list. unfold cell.
  assert (Hl : is_Some (remote' !! filename)).
  { unfold remote', assign2. rewrite lookup_insert_eq. by eexists. }
  destruct Hl as [envs Hl]. rewrite Hl. done.
Qed.

End SetWrites.

(** X2. On a usable store, [Set(filename, environment, value)] records
    [value] in [remote], leaves every store cell of another file as it
    was and, when the store already holds a non-empty token for
    [(filename, environment)], leaves the other environments of
    [filename] as they were too: only the target cell changes. *)
Theorem Set_frame (m : fileManifest) (filename environment value : string) :
  YStore.fault (store m) = None →
  let after := (Set_ m filename environment value).1 in
  cell (remote after) filename environment = Some value
  ∧ (∀ f e, f ≠ filename →
            cell (YStore.data (store after)) f e = cell (YStore.data (store m)) f e)
  ∧ (∀ current, YStore.Read (store m) filename environment = (current, None) →
                current ≠ "" →
                ∀ e, e ≠ environment →
                     cell (YStore.data (store after)) filename e
                     = cell (YStore.data (store m)) filename e).
Proof.
  intros Hf after.
  destruct (Set_ok m filename environment value Hf) as (staged & Hrun & Hin).
  unfold after. rewrite Hrun. cbn [fst remote store YStore.data].
  split; [|split].
  - rewrite assign2_cell. by rewrite decide_True.
  - intros f e Hne. apply apply_batch_untouched.
    intros x Hx. apply Hin in Hx as (? & _). done.
  - intros current Hr Hcur e Hne. apply apply_batch_untouched.
    intros x Hx. apply Hin in Hx as (_ & _ & [Hx|Hx]); [|done].
    rewrite Hr in Hx. done.
Qed.

(** A ledger that knows [a.liquid] for [dev] while the remote reports it
    for [dev] and [prod]. *)
Lemma Set_frame_witness :
  cell (YStore.data (store (Set_ first_run "a.liquid" "dev" "t2").1)) "a.liquid" "prod"
  = None.
Proof.
  destruct (Set_frame first_run "a.liquid" "dev" "t2" eq_refl) as (_ & _ & Hkeep).
  rewrite (Hkeep "2021-01-01T00:00:00Z"); [| vm_compute; reflexivity | done | done].
  vm_compute. reflexivity.
Defined.

(** X3. On a usable store that answers no token, or the empty one, for
    [(filename, environment)], [Set] writes to the store every
    environment that [remote] then holds for [filename], not the target
    alone. *)
Theorem Set_fills_file (m : fileManifest) (filename environment value : string) :
  YStore.fault (store m) = None →
  (YStore.Read (store m) filename environment).1 = "" →
  let after := (Set_ m filename environment value).1 in
  ∀ e token, cell (remote after) filename e = Some token →
             cell (YStore.data (store after)) filename e = Some token.
Proof.
  intros Hf Hcur after e token.
  destruct (Set_ok m filename environment value Hf) as (staged & Hrun & Hin).
  unfold after. rewrite Hrun. cbn [fst remote store YStore.data].
  intros Hcell. apply apply_batch_cell.
  - intros x Hx. apply Hin in Hx as (_ & Hx & _). congruence.
  - apply Hin. by eauto.
Qed.

(** X3, at a ledger that has no entry for [new.liquid]: setting it for
    [prod] writes the remote's [dev] token to the store as well. *)
Lemma Set_fills_file_witness :
  cell (YStore.data (store (Set_ first_run "new.liquid" "prod" "t2").1))
    "new.liquid" "dev" = Some "2021-06-01T00:00:00Z".
Proof.
  apply (Set_fills_file first_run "new.liquid" "prod" "t2" eq_refl eq_refl).
  vm_compute. reflexivity.
Defined.

(** X4. When the store cannot be used, [Set] returns its error and
    leaves the store and [local] as they were, yet [remote] already holds
    the new value. *)
Theorem Set_fails (m : fileManifest) (filename environment value msg : string) :
  YStore.fault (store m) = Some msg →
  Set_ m filename environment value =
    (mkManifest (store m) (local m) (assign2 (remote m) filename environment value),
     Some (Errorf msg)).
Proof.
  intros Hf. unfold Set_.
  fold (assign2 (remote m) filename environment value). cbn [with_remote store].
  destruct (Set_stage_exact (store m) filename environment
              (map_to_list (default ∅ (assign2 (remote m) filename environment value
                                         !! filename))) YStore.NewBatch)
    as (staged & -> & _).
  unfold YStore.Commit. by rewrite Hf.
Qed.

Lemma Set_fails_witness :
  index2 (remote (Set_ (mkManifest broken_store ∅ ∅) "a.liquid" "dev" "t2").1)
    "a.liquid" "dev" = "t2".
Proof.
  rewrite (Set_fails (mkManifest broken_store ∅ ∅) "a.liquid" "dev" "t2"
             "theme.lock: permission denied" eq_refl).
  vm_compute. reflexivity.
Defined.

(** ** What [Delete] removes *)

Lemma delete_entry_cell (d : nested) filename environment envs f e :
  d !! filename = Some envs →
  cell (<[filename := delete environment envs]> d) f e =
    if decide (f = filename ∧ e = environment) then None else cell d f e.
Proof.
  intros Hd. unfold cell. destruct (decide (f = filename)) as [->|Hf].
  - rewrite lookup_insert_eq, Hd. cbn.
    destruct (decide (e = environment)) as [->|He].
    + rewrite decide_True by done. apply lookup_delete_eq.
    + rewrite decide_False by tauto. by apply lookup_delete_ne.
  - rewrite lookup_insert_ne by done. by rewrite decide_False by tauto.
Qed.

(** X5. On a usable store, [Delete(filename, environment)] succeeds,
    empties that cell in the store, in [local] and in [remote], and
    leaves every other cell of the three as it was.  When the store
    cannot be used, [Delete] returns the error and changes nothing, not
    even [remote]. *)
Theorem Delete_frame (m : fileManifest) (filename environment : string) :
  (mirrors m →
   let after := (Delete m filename environment).1 in
   (Delete m filename environment).2 = None
   ∧ ∀ f e,
       let expect (d : nested) :=
         if decide (f = filename ∧ e = environment) then None else cell d f e in
       cell (YStore.data (store after)) f e = expect (YStore.data (store m))
       ∧ cell (local after) f e = expect (local m)
       ∧ cell (remote after) f e = expect (remote m))
  ∧ (∀ msg, YStore.fault (store m) = Some msg →
            Delete m filename environment = (m, Some (Errorf msg))).
Proof.
  split.
  - intros [Hf Hmirror] after. unfold after, Delete.
    destruct (Delete_cell (store m) filename environment Hf) as (s' & -> & Hf' & Hcells).
    change (remote (with_store m s')) with (remote m).
    unfold reload, YStore.Dump.
    destruct (remote m !! filename) as [envs|] eqn:Hr;
      cbn [with_store with_remote store]; rewrite Hf'; cbn [fst snd];
      (split; [done|]); intros f e;
      cbn [store local remote with_local with_store with_remote];
      rewrite Hmirror, Hcells; (split; [done|]); (split; [done|]).
    + by apply delete_entry_cell.
    + case_decide as Hfe; [|done]. destruct Hfe as [-> ->].
      unfold cell. by rewrite Hr.
  - intros msg Hf. unfold Delete, YStore.Delete. rewrite Hf.
    by destruct m.
Qed.

Lemma Delete_frame_witness :
  cell (local (Delete two_envs "a.liquid" "staging").1) "a.liquid" "dev"
  = Some "2021-01-01T00:00:00Z"
  ∧ Delete (mkManifest broken_store ∅ ∅) "a.liquid" "dev"
    = (mkManifest broken_store ∅ ∅, Some (Errorf "theme.lock: permission denied")).
Proof.
  destruct (Delete_frame two_envs "a.liquid" "staging") as [Hok _].
  destruct (Hok (conj eq_refl eq_refl)) as [_ Hcells].
  destruct (Hcells "a.liquid" "dev") as (_ & Hlocal & _).
  split.
  - rewrite Hlocal. vm_compute. reflexivity.
  - apply (proj2 (Delete_frame (mkManifest broken_store ∅ ∅) "a.liquid" "dev")).
    reflexivity.
Defined.

(** ** What [backfillLocal] keeps *)

Section BackfillKeeps.

Lemma backfillLocal_ok (m : fileManifest) :
  YStore.fault (store m) = None →
  ∃ staged,
    backfillLocal m =
      (let contents := YStore.apply_batch (YStore.data (store m)) staged in
       mkManifest (YStore.mk contents (YStore.comment (store m)) None)
         contents (remote m), None)
    ∧ ∀ f e token, (f, e, token) ∈ staged ↔
                   cell (remote m) f e = Some token
                   ∧ is_Some (local m !! f)
                   ∧ cell (local m) f e = None.
Proof.
  intros Hf. destruct (backfillLocal_staged_spec m) as (staged & Heq & Hin).
  exists staged. split; [|done].
  unfold backfillLocal. rewrite Heq. unfold YStore.Commit. by rewrite Hf.
Qed.

(** A batch creates no collection besides those it writes to. *)
Lemma apply_batch_collection (d : nested) (b : YStore.Batch) f :
  is_Some (YStore.apply_batch d b !! f) →
  is_Some (d !! f) ∨ ∃ k x, (f, k, x) ∈ b.
Proof.
  induction b as [|[[c k] x] b IH] using rev_ind; [by left|].
  rewrite apply_batch_snoc. cbn [YStore.put].
  destruct (decide (c = f)) as [->|Hne].
  - intros _. right. exists k, x. apply elem_of_app. right.
    by apply list_elem_of_singleton.
  - rewrite lookup_insert_ne by done. intros [H|(k' & x' & H)]%IH; [by left|].
    right. exists k', x'. apply elem_of_app. by left.
Qed.

End BackfillKeeps.

(** X6. On a usable store, [backfillLocal] leaves [remote] as it was and
    changes no store cell of a file that [local] does not know, no cell
    for which [local] already has a token, and no cell for which
    [remote] has none: tokens of the ledger are never overwritten by the
    remote's. *)
Theorem backfillLocal_keeps (m : fileManifest) :
  YStore.fault (store m) = None →
  let after := (backfillLocal m).1 in
  remote after = remote m
  ∧ ∀ f e,
      local m !! f = None ∨ is_Some (cell (local m) f e)
      ∨ cell (remote m) f e = None →
      cell (YStore.data (store after)) f e = cell (YStore.data (store m)) f e.
Proof.
  intros Hf after. destruct (backfillLocal_ok m Hf) as (staged & Hrun & Hin).
  unfold after. rewrite Hrun. cbn [fst remote store YStore.data].
  split; [done|]. intros f e Hcase. apply apply_batch_untouched.
  intros x (Hr & [l Hl] & Hc)%Hin.
  destruct Hcase as [H|[[v H]|H]]; congruence.
Qed.

Lemma backfillLocal_keeps_witness :
  cell (YStore.data (store (backfillLocal first_run).1)) "a.liquid" "dev"
  = Some "2021-01-01T00:00:00Z".
Proof.
  destruct (backfillLocal_keeps first_run eq_refl) as [_ Hkeep].
  rewrite Hkeep.
  - vm_compute. reflexivity.
  - right. left. vm_compute. by eexists.
Defined.

(** X7. When [local] is the snapshot of a usable store, running
    [backfillLocal] a second time changes nothing: it returns the state
    the first run left, and no error. *)
Theorem backfillLocal_idempotent (m : fileManifest) :
  mirrors m →
  backfillLocal (backfillLocal m).1 = backfillLocal m.
Proof.
  intros [Hf Hmirror].
  destruct (backfillLocal_ok m Hf) as (staged & Hrun & Hin).
  rewrite Hrun. cbn [fst].
  set (contents := YStore.apply_batch (YStore.data (store m)) staged).
  destruct (backfillLocal_ok
              (mkManifest (YStore.mk contents (YStore.comment (store m)) None)
                 contents (remote m)) eq_refl) as (staged' & Hrun' & Hin').
  cbn [store local remote YStore.data YStore.comment] in Hrun', Hin'.
  assert (staged' = []) as ->.
  { destruct staged' as [|[[f e] token] rest]; [done|]. exfalso.
    destruct (proj1 (Hin' f e token) ltac:(left)) as (Hr & Hsome & Hnone).
    assert (Hknown : is_Some (local m !! f)).
    { apply apply_batch_collection in Hsome as [H|(k & x & H)].
      - by rewrite Hmirror.
      - by apply Hin in H as (_ & H & _). }
    destruct (cell (local m) f e) as [v|] eqn:Hl.
    - rewrite Hmirror in Hl. unfold contents in Hnone.
      rewrite apply_batch_untouched in Hnone; [congruence|].
      intros x (_ & _ & Hx)%Hin. rewrite Hmirror in Hx. congruence.
    - assert (Hst : (f, e, token) ∈ staged) by by apply Hin.
      unfold contents, cell in Hnone.
      rewrite (apply_batch_cell _ staged f e token) in Hnone; [done| |done].
      intros x (Hx & _)%Hin. congruence. }
  by rewrite Hrun'.
Qed.

Lemma backfillLocal_idempotent_witness :
  backfillLocal (backfillLocal first_run).1 = backfillLocal first_run.
Proof. apply backfillLocal_idempotent. split; reflexivity. Defined.

(** ** [Should] *)



(** ** [Diff] *)

Section DiffFacts.

Variable time_Parse_RFC3339 : string → option Time.
Variable fmtTime : Time → string.
Variables red green yellow : string → string.
Variable assetAction : Type.
Variable event : assetAction → EventType.

Let step := Diff_step time_Parse_RFC3339 fmtTime red green yellow assetAction event.
Let removed := removed_of time_Parse_RFC3339 fmtTime red assetAction.
Let created := created_of time_Parse_RFC3339 fmtTime green assetAction event.
Let updated := updated_of time_Parse_RFC3339 fmtTime yellow assetAction.

Lemma Diff_step_lines (m : fileManifest) dstEnv srcEnv diff entry :
  Removed (step m dstEnv srcEnv diff entry)
    = Removed diff ++ removed m dstEnv srcEnv entry
  ∧ Created (step m dstEnv srcEnv diff entry)
    = Created diff ++ created m dstEnv srcEnv entry
  ∧ Updated (step m dstEnv srcEnv diff entry)
    = Updated diff ++ updated m dstEnv srcEnv entry.
Proof.
  unfold step, removed, created, updated, Diff_step, removed_of, created_of,
    updated_of.
  destruct entry as [filename action]. cbn [fst snd].
  destruct (diffDates time_Parse_RFC3339 m filename dstEnv srcEnv) as [l r].
  destruct (negb (IsZero l) && IsZero r),
    (IsZero l && negb (IsZero r) && bool_decide (event action = Remove)),
    (negb (IsZero l) && Before l r); cbn; by rewrite ?app_nil_r.
Qed.

Lemma Diff_fold_lines (m : fileManifest) dstEnv srcEnv entries diff :
  let diff' := foldl (step m dstEnv srcEnv) diff entries in
  Removed diff' = Removed diff ++ flat_map (removed m dstEnv srcEnv) entries
  ∧ Created diff' = Created diff ++ flat_map (created m dstEnv srcEnv) entries
  ∧ Updated diff' = Updated diff ++ flat_map (updated m dstEnv srcEnv) entries.
Proof.
  revert diff. induction entries as [|entry entries IH]; intros diff diff'.
  - cbn. by rewrite !app_nil_r.
  - unfold diff'. cbn [foldl flat_map].
    destruct (IH (step m dstEnv srcEnv diff entry)) as (-> & -> & ->).
    destruct (Diff_step_lines m dstEnv srcEnv diff entry) as (-> & -> & ->).
    by rewrite <- !app_assoc.
Qed.

(** One entry adds at most one line to [Created] and [Removed]
    together, and to [Created] and [Updated] together. *)
Lemma Diff_one_line (m : fileManifest) dstEnv srcEnv entry :
  (length (created m dstEnv srcEnv entry)
   + length (removed m dstEnv srcEnv entry) ≤ 1)%nat
  ∧ (length (created m dstEnv srcEnv entry)
     + length (updated m dstEnv srcEnv entry) ≤ 1)%nat.
Proof.
  unfold removed, created, updated, removed_of, created_of, updated_of.
  destruct (diffDates time_Parse_RFC3339 m entry.1 dstEnv srcEnv) as [l r].
  destruct (IsZero l), (IsZero r), (Before l r),
    (bool_decide (event entry.2 = Remove)); cbn; lia.
Qed.

Lemma flat_map_lengths {A : Type} (f g : A → list string) (l : list A) :
  (∀ x, (length (f x) + length (g x) ≤ 1)%nat) →
  (length (flat_map f l) + length (flat_map g l) ≤ length l)%nat.
Proof.
  intros H. induction l as [|x l IH]; cbn; [lia|].
  rewrite !length_app. specialize (H x). lia.
Qed.

(** X9. A line is in [Removed] of a [Diff] exactly when it describes a
    file of the actions whose local timestamp is not zero and whose
    remote one is; in [Created] when the local one is zero, the remote
    one is not and the action is a Remove; in [Updated] when the local
    one is not zero and is before the remote one. *)
Theorem Diff_lines (m : fileManifest) (actions : gmap string assetAction)
    (dstEnv srcEnv line : string) :
  let diff := Diff time_Parse_RFC3339 fmtTime red green yellow assetAction event
                m actions dstEnv srcEnv in
  let dates filename := diffDates time_Parse_RFC3339 m filename dstEnv srcEnv in
  (line ∈ Removed diff ↔
   ∃ filename action local_ remote_,
     actions !! filename = Some action ∧ dates filename = (local_, remote_)
     ∧ local_ ≠ zeroTime ∧ remote_ = zeroTime
     ∧ line = red (filename ++ " " ++ fmtTime local_)%string)
  ∧ (line ∈ Created diff ↔
     ∃ filename action local_ remote_,
       actions !! filename = Some action ∧ dates filename = (local_, remote_)
       ∧ local_ = zeroTime ∧ remote_ ≠ zeroTime ∧ event action = Remove
       ∧ line = green (filename ++ " " ++ fmtTime remote_)%string)
  ∧ (line ∈ Updated diff ↔
     ∃ filename action local_ remote_,
       actions !! filename = Some action ∧ dates filename = (local_, remote_)
       ∧ local_ ≠ zeroTime ∧ (local_ < remote_)%Z
       ∧ line = yellow (filename ++ " local:" ++ fmtTime local_
                        ++ " remote:" ++ fmtTime remote_)%string).
Proof.
  intros diff dates. unfold diff, Diff. fold step.
  destruct (Diff_fold_lines m dstEnv srcEnv (map_to_list actions) newDiff)
    as (-> & -> & ->).
  cbn [newDiff Removed Created Updated app].
  rewrite !list_elem_of_In, !in_flat_map.
  unfold removed, created, updated, removed_of, created_of, updated_of, dates,
    IsZero, Before, zeroTime.
  split; [|split]; split.
  - intros ([filename action] & Hin%list_elem_of_In%elem_of_map_to_list & Hline).
    cbn [fst snd] in Hline.
    destruct (diffDates _ _ _ _ _) as [l r] eqn:Hd.
    destruct (l =? 0)%Z eqn:Hl, (r =? 0)%Z eqn:Hr; cbn in Hline; try done.
    destruct Hline as [<-|[]]. exists filename, action, l, r.
    apply Z.eqb_neq in Hl. apply Z.eqb_eq in Hr. done.
  - intros (filename & action & l & r & Ha & Hd & Hl & Hr & ->).
    exists (filename, action). split.
    + by apply list_elem_of_In, elem_of_map_to_list.
    + cbn [fst snd]. rewrite Hd.
      apply Z.eqb_neq in Hl. apply Z.eqb_eq in Hr. rewrite Hl, Hr. by left.
  - intros ([filename action] & Hin%list_elem_of_In%elem_of_map_to_list & Hline).
    cbn [fst snd] in Hline.
    destruct (diffDates _ _ _ _ _) as [l r] eqn:Hd.
    destruct (l =? 0)%Z eqn:Hl, (r =? 0)%Z eqn:Hr; cbn in Hline; try done.
    case_bool_decide as He; [|done].
    destruct Hline as [<-|[]]. exists filename, action, l, r.
    apply Z.eqb_eq in Hl. apply Z.eqb_neq in Hr. done.
  - intros (filename & action & l & r & Ha & Hd & Hl & Hr & He & ->).
    exists (filename, action). split.
    + by apply list_elem_of_In, elem_of_map_to_list.
    + cbn [fst snd]. rewrite Hd.
      apply Z.eqb_eq in Hl. apply Z.eqb_neq in Hr. rewrite Hl, Hr.
      rewrite bool_decide_eq_true_2 by done. by left.
  - intros ([filename action] & Hin%list_elem_of_In%elem_of_map_to_list & Hline).
    cbn [fst snd] in Hline.
    destruct (diffDates _ _ _ _ _) as [l r] eqn:Hd.
    destruct (l =? 0)%Z eqn:Hl, (l <? r)%Z eqn:Hb; cbn in Hline; try done.
    destruct Hline as [<-|[]]. exists filename, action, l, r.
    apply Z.eqb_neq in Hl. apply Z.ltb_lt in Hb. done.
  - intros (filename & action & l & r & Ha & Hd & Hl & Hb & ->).
    exists (filename, action). split.
    + by apply list_elem_of_In, elem_of_map_to_list.
    + cbn [fst snd]. rewrite Hd.
      apply Z.eqb_neq in Hl. apply Z.ltb_lt in Hb. rewrite Hl, Hb. by left.
Qed.

(** X10. A file of the actions gets at most one line among [Created]
    and [Removed], and at most one among [Created] and [Updated]: a
    [Diff] has no more lines of either pair than there are actions. *)
Theorem Diff_bounds (m : fileManifest) (actions : gmap string assetAction)
    (dstEnv srcEnv : string) :
  let diff := Diff time_Parse_RFC3339 fmtTime red green yellow assetAction event
                m actions dstEnv srcEnv in
  (length (Created diff) + length (Removed diff) ≤ size actions)%nat
  ∧ (length (Created diff) + length (Updated diff) ≤ size actions)%nat.
Proof.
  intros diff. unfold diff, Diff. fold step.
  destruct (Diff_fold_lines m dstEnv srcEnv (map_to_list actions) newDiff)
    as (-> & -> & ->).
  cbn [newDiff Removed Created Updated app].
  rewrite <- (length_map_to_list actions). split.
  - apply flat_map_lengths. intros x. apply Diff_one_line.
  - apply flat_map_lengths. intros x. apply Diff_one_line.
Qed.

End DiffFacts.

(** ** What [generateRemote] returns *)

Section GenerateRemoteResult.

Variable clients : list ThemeClient.

Lemma generateRemote_returned schedule (m m' : fileManifest) err :
  generateRemote clients schedule m = Some (m', err) →
  ∃ g, group_inv clients g
       ∧ (∀ i, i < length clients → ∃ e, queries g !! i = Some (Returned e))
       ∧ m' = with_remote m (remote_map g) ∧ err = first_error g.
Proof.
  unfold generateRemote.
  set (g := run clients schedule (launch clients)).
  assert (Hinv : group_inv clients g) by apply run_inv, launch_inv.
  destruct (forallb is_returned (queries g)) eqn:Hall; [|done].
  intros [= <- <-]. exists g. split; [done|]. split; [|done].
  rewrite all_returned in Hall. intros i Hi. apply Hall.
  by rewrite (inv_length _ _ Hinv).
Qed.

Lemma generateRemote_progress schedule (m : fileManifest) :
  ∃ more, is_Some (generateRemote clients (schedule ++ more) m).
Proof.
  assert (Hinv := run_inv clients schedule _ (launch_inv clients)).
  destruct (pending_return clients (seq 0 (length clients)) _ Hinv) as [more Hmore].
  exists more. unfold generateRemote. rewrite run_app.
  assert (Hinv' := run_inv clients more _ Hinv).
  replace (forallb _ _) with true; [by eexists|]. symmetry.
  apply all_returned. intros i Hi. rewrite (inv_length _ _ Hinv') in Hi.
  apply Hmore; [|done]. apply elem_of_seq. lia.
Qed.

Lemma head_omap_None (l : list nat) :
  head (omap (listing_error clients) l) = None ↔
  ∀ i, i ∈ l → listing_error clients i = None.
Proof.
  induction l as [|i l IH]; cbn.
  - split; [|done]. by intros _ i ?%elem_of_nil.
  - destruct (listing_error clients i) as [e|] eqn:He; cbn.
    + split; [done|]. intros H. specialize (H i ltac:(left)). congruence.
    + rewrite IH. split.
      * intros H j [->|Hj]%elem_of_cons; [done|by apply H].
      * intros H j Hj. apply H. by right.
Qed.

(** The error returned is nil exactly when no listing failed. *)
Lemma generateRemote_error schedule (m m' : fileManifest) err :
  generateRemote clients schedule m = Some (m', err) →
  (err = None ↔ ∀ client, client ∈ clients → (AssetList client).2 = None)
  ∧ (∀ e, err = Some e →
          ∃ client, client ∈ clients ∧ (AssetList client).2 = Some e).
Proof.
  intros (g & Hinv & Hall & -> & ->)%generateRemote_returned.
  rewrite (inv_error _ _ Hinv). split.
  - rewrite head_omap_None. split.
    + intros H client [i Hi]%list_elem_of_lookup.
      assert (Hfin : i ∈ finished g).
      { apply (inv_finished _ _ Hinv), Hall. by eapply lookup_lt_Some. }
      specialize (H i Hfin). unfold listing_error in H. by rewrite Hi in H.
    + intros H i _. unfold listing_error.
      destruct (clients !! i) as [client|] eqn:Hi; [|done].
      cbn. apply H. by eapply list_elem_of_lookup_2.
  - intros e He.
    destruct (omap (listing_error clients) (finished g)) as [|e' l] eqn:Hl; [done|].
    injection He as ->.
    assert (Hin : e ∈ omap (listing_error clients) (finished g))
      by (rewrite Hl; left).
    apply list_elem_of_omap in Hin as (i & _ & Hi). unfold listing_error in Hi.
    destruct (clients !! i) as [client|] eqn:Hc; [|done].
    exists client. split; [by eapply list_elem_of_lookup_2|done].
Qed.

Lemma NoDup_fmap_eq {A B : Type} (f : A → B) (l : list A) (x y : A) :
  NoDup (f <$> l) → x ∈ l → y ∈ l → f x = f y → x = y.
Proof.
  induction l as [|a l IH]; [by intros _ ?%elem_of_nil|].
  rewrite fmap_cons, NoDup_cons. intros [Ha Hl] Hx Hy Hf.
  apply elem_of_cons in Hx as [->|Hx]; apply elem_of_cons in Hy as [->|Hy];
    [done| | |by apply IH].
  - exfalso. apply Ha. rewrite Hf. by apply list_elem_of_fmap_2.
  - exfalso. apply Ha. rewrite <- Hf. by apply list_elem_of_fmap_2.
Qed.

End GenerateRemoteResult.

(** X11. When the clients have distinct environment names and no listing
    names a key twice, what [generateRemote] leaves in [remote] does not
    depend on how its goroutines were scheduled: each asset of each
    listing that succeeded is found under its key and its client's
    environment with its own version token, every other cell is empty,
    the store and [local] are untouched, and the error is nil exactly
    when no listing failed. *)
Theorem generateRemote_result (clients : list ThemeClient) (schedule : list nat)
    (m m' : fileManifest) (err : option error) :
  NoDup ((λ client, Environment (Config client)) <$> clients) →
  (∀ client, client ∈ clients → NoDup (Key <$> (AssetList client).1)) →
  generateRemote clients schedule m = Some (m', err) →
  store m' = store m ∧ local m' = local m
  ∧ (err = None ↔ ∀ client, client ∈ clients → (AssetList client).2 = None)
  ∧ ∀ k e v,
      cell (remote m') k e = Some v ↔
      ∃ client a, client ∈ clients ∧ (AssetList client).2 = None
                  ∧ a ∈ (AssetList client).1
                  ∧ Environment (Config client) = e
                  ∧ Key a = k ∧ UpdatedAt a = v.
Proof.
  intros Henvs Hkeys Hrun.
  destruct (generateRemote_error clients schedule m m' err Hrun) as [Herr _].
  apply generateRemote_returned in Hrun as (g & Hinv & Hall & -> & ->).
  split; [done|]. split; [done|]. split; [done|].
  intros k e v. cbn [with_remote remote]. split; [apply (inv_source _ _ Hinv)|].
  intros (client & a & Hc & Hok & Ha & <- & <- & <-).
  apply list_elem_of_lookup in Hc as Hi. destruct Hi as [i Hi].
  destruct (Hall i) as [e' He']; [by eapply lookup_lt_Some|].
  destruct (inv_returned _ _ Hinv i client e' Hi He') as [-> Hrep].
  destruct (Hrep Hok a Ha) as [v Hv]. rewrite Hv. f_equal.
  destruct (inv_source _ _ Hinv _ _ _ Hv)
    as (client' & a' & Hc' & Hok' & Ha' & Henv & Hkey & <-).
  assert (client' = client) as ->
    by (eapply (NoDup_fmap_eq (λ c, Environment (Config c))); eauto).
  f_equal. by eapply (NoDup_fmap_eq Key); eauto.
Qed.

Lemma generateRemote_result_witness :
  match generateRemote [ab_bc_client; failing_client] [0; 1; 0; 0; 0] demo with
  | Some (m', err) =>
      cell (remote m') "b" "dev" = Some "2021-01-01T00:00:00Z"
  | None => False
  end.
Proof.
  destruct (generateRemote [ab_bc_client; failing_client] [0; 1; 0; 0; 0] demo)
    as [[m' err]|] eqn:Hrun; [|vm_compute in Hrun; discriminate Hrun].
  apply (generateRemote_result [ab_bc_client; failing_client] [0; 1; 0; 0; 0]
           demo m' err) in Hrun as (_ & _ & _ & Hcells).
  - apply Hcells. exists ab_bc_client, (mkAsset "b" "" "2021-01-01T00:00:00Z").
    split; [left|]. split; [reflexivity|]. split; [right; left|done].
  - apply (bool_decide_unpack _). vm_compute. exact I.
  - intros client Hc. apply elem_of_cons in Hc as [->|Hc].
    + apply (bool_decide_unpack _). vm_compute. exact I.
    + apply list_elem_of_singleton in Hc as ->. constructor.
Defined.

(** ** [newFileManifest] *)

Section PruneComment.

Variable file_on_disk : string → string → bool.
Variable clients : list ThemeClient.

Lemma prune_files_comment (remote_ : nested) files (s : YStore.t) :
  YStore.comment (prune_files file_on_disk clients remote_ files s).1
  = YStore.comment s.
Proof.
  revert s. induction files as [|[filename envs] rest IH]; intros s; [done|].
  cbn [prune_files]. destruct (remote_ !! filename); [apply IH|].
  destruct (_ =? _)%Z; [|apply IH].
  unfold YStore.DeleteCollection.
  destruct (YStore.fault s); [done|]. by rewrite IH.
Qed.

Lemma prune_envs_comment filename envnames (s : YStore.t) :
  YStore.comment (prune_envs clients filename envnames s).1 = YStore.comment s.
Proof.
  revert s. induction envnames as [|envname rest IH]; intros s; [done|].
  cbn [prune_envs]. destruct (_ =? _)%Z; [|apply IH].
  unfold YStore.Delete. destruct (YStore.fault s); [done|]. by rewrite IH.
Qed.

Lemma prune_environments_comment files (s : YStore.t) :
  YStore.comment (prune_environments clients files s).1 = YStore.comment s.
Proof.
  revert s. induction files as [|[filename envs] rest IH]; intros s; [done|].
  cbn [prune_environments].
  assert (H := prune_envs_comment filename (range_keys envs) s).
  destruct (prune_envs clients filename (range_keys envs) s) as [s' [e|]];
    [done|]. cbn [fst] in H. by rewrite IH.
Qed.

(** [prune] on a ledger that mirrors a usable store: it succeeds, keeps
    [remote] and the comment of the store, and leaves only entries of
    configured environments, for files that the remote reports or a disk
    holds. *)
Lemma prune_ok (m : fileManifest) :
  mirrors m →
  ∃ m', prune file_on_disk clients m = (m', None)
        ∧ remote m' = remote m
        ∧ YStore.comment (store m') = YStore.comment (store m)
        ∧ ∀ f e v, cell (local m') f e = Some v →
                   configured clients e
                   ∧ (is_Some (remote m !! f)
                      ∨ on_some_disk file_on_disk clients f).
Proof.
  intros [Hf Hmirror]. unfold prune.
  assert (Hc1' := prune_files_comment (remote m) (map_to_list (local m)) (store m)).
  destruct (prune_files_cells file_on_disk clients (remote m)
              (map_to_list (local m)) (store m) Hf) as (s1 & Hs1 & Hf1 & Hc1).
  rewrite Hs1 in Hc1' |- *. cbn [fst] in Hc1'.
  assert (Hc2' := prune_environments_comment (map_to_list (local m)) s1).
  destruct (prune_environments_cells clients (map_to_list (local m)) s1 Hf1)
    as (s2 & Hs2 & Hf2 & Hc2).
  rewrite Hs2 in Hc2' |- *. cbn [fst] in Hc2'.
  unfold reload, YStore.Dump. cbn [with_store store]. rewrite Hf2.
  eexists. split; [done|]. cbn [with_local with_store remote store local].
  split; [done|]. split; [congruence|].
  intros f e v Hv.
  destruct (Hc1 f e) as [Ha1 Hb1]. destruct (Hc2 f e) as [Ha2 Hb2].
  assert (Hvisit : cell (YStore.data (store m)) f e = Some v →
            f ∈ (map_to_list (local m)).*1
            ∧ ∃ envs, (f, envs) ∈ map_to_list (local m) ∧ e ∈ dom envs).
  { rewrite <- Hmirror. unfold cell. intros Hl.
    destruct (local m !! f) as [envs|] eqn:Hlf; [|done]. cbn in Hl.
    assert ((f, envs) ∈ map_to_list (local m)) by by apply elem_of_map_to_list.
    split.
    - apply list_elem_of_fmap. by exists (f, envs).
    - exists envs. split; [done|]. apply elem_of_dom. by exists v. }
  assert (Hdrop : Decision (f ∈ (map_to_list (local m)).*1 ∧ remote m !! f = None
                            ∧ ¬ on_some_disk file_on_disk clients f)).
  { pose proof (on_some_disk_dec file_on_disk clients f). apply _. }
  assert (Hdec : Decision (∃ envs, (f, envs) ∈ map_to_list (local m) ∧ e ∈ dom envs)).
  { destruct (list_exist_dec
                (λ p : string * gmap string string, p.1 = f ∧ e ∈ dom p.2)
                (map_to_list (local m)) _) as [H|H].
    - left. destruct H as ([f' envs'] & Hin & Hfe & He). cbn in Hfe, He.
      subst f'. eauto.
    - right. intros (envs' & Hin & He). apply H. exists (f, envs'). eauto. }
  assert (Hs1v : cell (YStore.data s1) f e = Some v).
  { destruct Hdec as [Hent|Hent];
      destruct (configured_dec clients e) as [Hcfg|Hcfg];
      first [ by rewrite Ha2 in Hv | by rewrite Hb2 in Hv by tauto ]. }
  assert (Hsv : cell (YStore.data (store m)) f e = Some v).
  { destruct Hdrop as [Hd|Hd]; [by rewrite Ha1 in Hs1v|]. by rewrite Hb1 in Hs1v. }
  destruct (Hvisit Hsv) as [Hin Hent]. split.
  - destruct (configured_dec clients e) as [Hcfg|Hcfg]; [done|].
    by rewrite Ha2 in Hv.
  - destruct (remote m !! f) as [r|] eqn:Hr; [left; by eexists|].
    destruct (on_some_disk_dec file_on_disk clients f) as [Hd|Hd]; [by right|].
    by rewrite Ha1 in Hs1v.
Qed.

End PruneComment.

Section NewFileManifest.

Variable ystore_New : string → YStore.t * option error.
Variable filepath_Join : string → string → string.
Variable file_on_disk : string → string → bool.

(** X12. When [newFileManifest] returns a manifest and no error: every
    listing succeeded; [local] is the snapshot of the store, which is
    usable and carries the comment of the manifest; every entry of
    [local] belongs to a configured environment and to a file that the
    remote reports or that a configured environment has on disk; and
    every entry of [remote] is an asset of a listing. *)
Theorem newFileManifest_ok (path : string) (clients : list ThemeClient)
    (schedule : list nat) (m : fileManifest) :
  newFileManifest ystore_New filepath_Join file_on_disk path clients schedule = Some (Some m, None) →
  mirrors m
  ∧ YStore.comment (store m) = manifestComment
  ∧ (∀ client, client ∈ clients → (AssetList client).2 = None)
  ∧ (∀ f e v, cell (local m) f e = Some v →
       configured clients e
       ∧ (is_Some (remote m !! f) ∨ on_some_disk file_on_disk clients f))
  ∧ (∀ k e v, cell (remote m) k e = Some v →
       ∃ client a, client ∈ clients ∧ a ∈ (AssetList client).1
                   ∧ Environment (Config client) = e
                   ∧ Key a = k ∧ UpdatedAt a = v).
Proof.
  unfold newFileManifest.
  destruct (ystore_New _) as [store0 [e|]]; [done|].
  unfold YStore.SetComment.
  destruct (YStore.fault store0) as [msg|] eqn:Hf0; [done|].
  unfold reload, YStore.Dump, with_local.
  cbn [store YStore.fault YStore.data local remote].
  set (m0 := mkManifest (YStore.mk (YStore.data store0) manifestComment None)
               (YStore.data store0) ∅).
  destruct (generateRemote clients schedule m0) as [[m1 [e|]]|] eqn:Hgen;
    [intros [=] | | intros [=]].
  destruct (generateRemote_error clients schedule m0 m1 None Hgen) as [Hall _].
  apply generateRemote_returned in Hgen as (g & Hinv & _ & -> & _).
  destruct (backfillLocal_ok (with_remote m0 (remote_map g)) eq_refl)
    as (staged & -> & _).
  cbn [with_remote store local remote m0 YStore.data YStore.comment].
  set (m2 := mkManifest _ _ _).
  destruct (prune_ok file_on_disk clients m2 (conj eq_refl eq_refl))
    as (m3 & Hprune & Hremote & Hcomment & Hentries).
  rewrite Hprune. intros [= <-].
  assert (Hm3 := prune_mirrors file_on_disk clients m2 m3 Hprune).
  split; [done|]. split; [by rewrite Hcomment|]. split; [by apply Hall|].
  split.
  - intros f e v Hv. destruct (Hentries f e v Hv) as [Hc Hk].
    split; [done|]. by rewrite Hremote.
  - intros k e v Hv. rewrite Hremote in Hv.
    destruct (inv_source _ _ Hinv k e v Hv) as (client & a & ? & _ & ?).
    by exists client, a.
Qed.

(** X13. [newFileManifest] returns under a suitable continuation of
    every schedule.  When the store cannot be opened it returns that
    error and no manifest at once, whatever the schedule; and when a
    listing fails it returns an error and no manifest. *)
Theorem newFileManifest_fails (path : string) (clients : list ThemeClient)
    (schedule : list nat) :
  (∃ more, is_Some (newFileManifest ystore_New filepath_Join file_on_disk path clients (schedule ++ more)))
  ∧ (∀ e, (ystore_New (filepath_Join path storeName)).2 = Some e →
          newFileManifest ystore_New filepath_Join file_on_disk path clients schedule = Some (None, Some e))
  ∧ (∀ result,
       newFileManifest ystore_New filepath_Join file_on_disk path clients schedule = Some result →
       (∃ client, client ∈ clients ∧ is_Some (AssetList client).2) →
       result.1 = None ∧ is_Some result.2).
Proof.
  unfold newFileManifest. split; [|split].
  - destruct (ystore_New _) as [store0 [e|]]; [exists []; by eexists|].
    destruct (YStore.SetComment store0 manifestComment) as [store1 [e|]];
      [exists []; by eexists|].
    destruct (reload _) as [m0 [e|]]; [exists []; by eexists|].
    destruct (generateRemote_progress clients schedule m0) as [more [[m1 e] Hgen]].
    exists more. rewrite Hgen. destruct e as [e|]; [by eexists|].
    destruct (backfillLocal m1) as [m2 [e|]]; [by eexists|].
    destruct (prune file_on_disk clients m2). by eexists.
  - intros e He. destruct (ystore_New _) as [store0 err]. cbn in He. by subst err.
  - intros result Hrun (client & Hc & Hfail).
    destruct (ystore_New _) as [store0 [e|]];
      [injection Hrun as <-; split; [done|by eexists]|].
    destruct (YStore.SetComment store0 manifestComment) as [store1 [e|]];
      [injection Hrun as <-; split; [done|by eexists]|].
    destruct (reload _) as [m0 [e|]];
      [injection Hrun as <-; split; [done|by eexists]|].
    destruct (generateRemote clients schedule m0) as [[m1 [e|]]|] eqn:Hgen;
      [injection Hrun as <-; split; [done|by eexists]| |done].
    destruct (generateRemote_error clients schedule m0 m1 None Hgen) as [Hall _].
    rewrite (proj1 Hall eq_refl client Hc) in Hfail. by destruct Hfail.
Qed.

End NewFileManifest.

Lemma newFileManifest_ok_witness :
  match newFileManifest (λ _, (two_envs_store, None)) (λ dir name, dir ++ "/" ++ name)%string
          empty_disk "/themes/dev" [ab_bc_client] [0; 0; 0; 0] with
  | Some (Some m, None) =>
      cell (local m) "a.liquid" "staging" = None
      ∧ YStore.comment (store m) = manifestComment
  | _ => False
  end.
Proof.
  destruct (newFileManifest _ _ _ _ _ _) as [[[m|] [e|]]|] eqn:Hrun;
    try (vm_compute in Hrun; discriminate Hrun).
  apply newFileManifest_ok in Hrun as (_ & Hcomment & _ & Hentries & _).
  split; [|done].
  destruct (cell (local m) "a.liquid" "staging") as [v|] eqn:Hv; [|done].
  destruct (Hentries _ _ _ Hv) as [(client & Hc & Henv) _].
  apply list_elem_of_singleton in Hc as ->. discriminate Henv.
Defined.

Lemma newFileManifest_fails_witness :
  newFileManifest (λ _, (broken_store, Some (Errorf "theme.lock: malformed")))
    (λ dir name, dir ++ "/" ++ name)%string empty_disk "/themes/dev"
    [ab_bc_client] [] = Some (None, Some (Errorf "theme.lock: malformed")).
Proof.
  apply (proj1 (proj2 (newFileManifest_fails _ _ _ _ _ _))). reflexivity.
Defined.

(** * Further properties of the commands *)

(** ** The upload command on a writable environment *)

Section UploadFacts.

Variable client : ThemeClient.


Lemma mutations_performUpload (asset : Asset) :
  mutations_of (performUpload client asset) = [asset].
Proof.
  unfold performUpload. destruct (UpdateAsset client asset) as [host [e|]]; done.
Qed.



Lemma upload_named_err before failing after e (localAssets : list Asset) :
  (∀ f, f ∈ before → (LocalAsset client f).2 = None) →
  (LocalAsset client failing).2 = Some e →
  (upload_named client (before ++ failing :: after) localAssets).2 = Some e.
Proof.
  revert localAssets. induction before as [|f before IH]; intros localAssets Hok Herr.
  - cbn. destruct (LocalAsset client failing) as [asset err]. cbn in Herr.
    by subst err.
  - cbn [app upload_named].
    assert (Hf := Hok f ltac:(left)).
    destruct (LocalAsset client f) as [asset err]. cbn in Hf. subst err.
    apply IH; [|done]. intros g Hg. apply Hok. by right.
Qed.

Lemma wait_group_performUpload (asset : Asset) :
  wait_group_total (performUpload client asset) = (-1)%Z.
Proof.
  unfold performUpload. destruct (UpdateAsset client asset) as [host [e|]]; done.
Qed.

Lemma wait_group_upload_dispatch (localAssets : list Asset) :
  wait_group_total (upload_dispatch client localAssets) = 0%Z.
Proof.
  induction localAssets as [|asset rest IH]; [done|].
  cbn [upload_dispatch]. destruct (String.eqb (Key asset) settingsDataKey); [done|].
  change (wait_group_total (WaitGroupAdd 1 :: Go ?b :: ?t))
    with (1 + (wait_group_total b + wait_group_total t))%Z.
  rewrite wait_group_performUpload, IH. done.
Qed.

Lemma wait_group_total_app (t u : list effect) :
  wait_group_total (t ++ u) = (wait_group_total t + wait_group_total u)%Z.
Proof.
  unfold wait_group_total. induction t as [|e t IH]; cbn; [done|].
  rewrite IH. lia.
Qed.

Lemma wait_group_doupload : wait_group_total (doupload client) = 0%Z.
Proof.
  unfold doupload. destruct (LocalAsset client settingsDataKey) as [asset [e|]];
    [done|].
  change (wait_group_total [WaitGroupAdd 1; Go ?b])
    with (1 + (wait_group_total b + 0))%Z.
  rewrite wait_group_performUpload. done.
Qed.

End UploadFacts.



(** X15. On a writable environment, when the local listing fails, or
    when the lookup of a named file does, the main pass logs that error
    and starts no upload at all, not even for the names that were read
    before the one that failed. *)
Theorem upload_all_or_nothing (client : ThemeClient) :
  ReadOnly (Config client) = false →
  (∀ e, (LocalAssets client).2 = Some e →
        upload client [] = [Println []; LogError e; WaitGroupDone])
  ∧ (∀ before failing after e,
       let filenames := before ++ failing :: after in
       (∀ f, f ∈ before → (LocalAsset client f).2 = None) →
       (LocalAsset client failing).2 = Some e →
       upload client filenames = [Println filenames; LogError e; WaitGroupDone]).
Proof.
  intros Hrw. split.
  - intros e He. unfold upload. rewrite Hrw.
    change (Z.of_nat (length (@nil string)) =? 0)%Z with true. cbv iota.
    destruct (LocalAssets client) as [assets err]. cbn in He. by subst err.
  - intros before failing after e filenames Hok Herr. unfold upload. rewrite Hrw.
    replace (Z.of_nat (length filenames) =? 0)%Z with false
      by (symmetry; apply Z.eqb_neq; unfold filenames;
          rewrite length_app; cbn [length]; lia).
    assert (H := upload_named_err client before failing after e [] Hok Herr).
    fold filenames in H.
    destruct (upload_named client filenames []) as [assets err]. cbn in H.
    by subst err.
Qed.

Lemma upload_all_or_nothing_witness :
  upload ab_bc_client ["b"; "missing.liquid"]
  = [Println ["b"; "missing.liquid"];
     LogError (Errorf "open missing.liquid: no such file"); WaitGroupDone].
Proof.
  apply (proj2 (upload_all_or_nothing ab_bc_client eq_refl) ["b"] "missing.liquid" []).
  - intros f Hf. apply list_elem_of_singleton in Hf as ->. reflexivity.
  - reflexivity.
Defined.

Lemma uploadSettingsData_named_spec (client : ThemeClient) (filenames : list string) :
  uploadSettingsData_named client filenames
  = if bool_decide (settingsDataKey ∈ filenames) then doupload client else [].
Proof.
  induction filenames as [|f rest IH]; [done|].
  cbn [uploadSettingsData_named].
  destruct (String.eqb f settingsDataKey) eqn:Hf.
  - apply String.eqb_eq in Hf as ->.
    by rewrite bool_decide_eq_true_2 by left.
  - apply String.eqb_neq in Hf. rewrite IH.
    rewrite (bool_decide_ext (settingsDataKey ∈ f :: rest) (settingsDataKey ∈ rest));
      [done|].
    rewrite elem_of_cons. split; [intros [?|?]; [congruence|done] | by right].
Qed.

(** X16. The settings-data pass changes at most one remote asset: the
    one the lookup of [config/settings_data.json] returns, and only on a
    writable environment, when no filename is named or that file is among
    the named ones, and the lookup succeeds. *)
Theorem uploadSettingsData_spec (client : ThemeClient) (filenames : list string) :
  mutations_of (uploadSettingsData client filenames)
  = if ReadOnly (Config client) then []
    else if bool_decide (filenames = [] ∨ settingsDataKey ∈ filenames)
    then match LocalAsset client settingsDataKey with
         | (asset, None) => [asset]
         | (_, Some _) => []
         end
    else [].
Proof.
  unfold uploadSettingsData. destruct (ReadOnly (Config client)); [done|].
  assert (Hdo : mutations_of (doupload client)
                = match LocalAsset client settingsDataKey with
                  | (asset, None) => [asset]
                  | (_, Some _) => []
                  end).
  { unfold doupload.
    destruct (LocalAsset client settingsDataKey) as [asset [e|]]; [done|].
    change (mutations_of [WaitGroupAdd 1; Go ?b]) with (mutations_of b ++ []).
    by rewrite mutations_performUpload. }
  destruct filenames as [|f rest].
  - change (Z.of_nat (length (@nil string)) =? 0)%Z with true. cbv iota.
    by rewrite bool_decide_eq_true_2 by (by left).
  - replace (Z.of_nat (length (f :: rest)) =? 0)%Z with false
      by (symmetry; apply Z.eqb_neq; cbn [length]; lia).
    rewrite uploadSettingsData_named_spec.
    destruct (decide (settingsDataKey ∈ f :: rest)) as [Hin|Hin].
    + rewrite (bool_decide_eq_true_2 (settingsDataKey ∈ f :: rest)) by done.
      by rewrite (bool_decide_eq_true_2 (_ ∨ _)) by (by right).
    + rewrite (bool_decide_eq_false_2 (settingsDataKey ∈ f :: rest)) by done.
      by rewrite (bool_decide_eq_false_2 (_ ∨ _)) by (by intros [?|?]).
Qed.

(** X17. Whatever the client and the filenames, and whichever path is
    taken, the main pass leaves the counter of the wait group one below
    where it found it once the goroutines it started are done (the
    caller's own unit), and the settings-data pass leaves it where it
    found it: every [Add] is matched by a [Done]. *)
Theorem wait_group_balanced (client : ThemeClient) (filenames : list string) :
  wait_group_total (upload client filenames) = (-1)%Z
  ∧ wait_group_total (uploadSettingsData client filenames) = 0%Z.
Proof.
  split.
  - unfold upload. rewrite !wait_group_total_app.
    change (wait_group_total [Println filenames]) with 0%Z.
    change (wait_group_total [WaitGroupDone]) with (-1)%Z.
    destruct (ReadOnly (Config client)); [done|].
    destruct (if (Z.of_nat (length filenames) =? 0)%Z then LocalAssets client
              else upload_named client filenames []) as [assets [e|]]; [done|].
    by rewrite wait_group_upload_dispatch.
  - unfold uploadSettingsData. destruct (ReadOnly (Config client)); [done|].
    destruct (Z.of_nat (length filenames) =? 0)%Z; [apply wait_group_doupload|].
    rewrite uploadSettingsData_named_spec. case_bool_decide; [|done].
    apply wait_group_doupload.
Qed.

(** ** The replace command: errors and kinds of events *)

Section ReplaceFacts.

Variable IsValid : Asset → bool.
Variable client : ThemeClient.

(** Whatever the lookups answer, the loop over the named files files
    only Uploads of valid assets. *)
Lemma replace_named_uploads filenames (actions actions' : gmap string AssetEvent) :
  replace_named IsValid client filenames actions = (actions', None) →
  ∀ k ev, actions' !! k = Some ev →
          actions !! k = Some ev
          ∨ (event_type ev = Update ∧ IsValid (event_asset ev) = true).
Proof.
  revert actions. induction filenames as [|filename rest IH]; intros actions.
  - intros [= <-] k ev Hev. by left.
  - cbn [replace_named].
    destruct (LocalAsset client filename) as [asset [e|]]; [done|].
    destruct (IsValid asset) eqn:Hv; [|apply IH].
    intros Hrun k ev Hev. destruct (IH _ Hrun k ev Hev) as [Hins|?]; [|by right].
    destruct (decide (Key asset = k)) as [<-|Hne].
    + rewrite lookup_insert_eq in Hins. injection Hins as <-. by right.
    + rewrite lookup_insert_ne in Hins by done. by left.
Qed.

End ReplaceFacts.

(** X18. Whenever [replace] returns an error, it has queued no event:
    in a full replace when the remote listing or the local listing
    fails, in which case that error is the one returned, and in a
    selective replace when a lookup fails. *)
Theorem replace_error_queues_nothing (IsValid : Asset → bool)
    (client : ThemeClient) (filenames : list string) :
  (is_Some (replace IsValid client filenames).2 →
   (replace IsValid client filenames).1 = [])
  ∧ (∀ e, (AssetList client).2 = Some e →
          replace IsValid client [] = ([], Some e))
  ∧ (∀ e, (AssetList client).2 = None → (LocalAssets client).2 = Some e →
          replace IsValid client [] = ([], Some e)).
Proof.
  split; [|split].
  - unfold replace. destruct (Z.of_nat (length filenames) =? 0)%Z.
    + destruct (AssetList client) as [assets [e|]]; [done|].
      destruct (LocalAssets client) as [localAssets [e|]]; [done|].
      by intros [? [=]].
    + destruct (replace_named IsValid client filenames ∅) as [actions [e|]];
        [done|]. by intros [? [=]].
  - intros e He. unfold replace.
    change (Z.of_nat (length (@nil string)) =? 0)%Z with true. cbv iota.
    destruct (AssetList client) as [assets err]. cbn in He. by subst err.
  - intros e Hok He. unfold replace.
    change (Z.of_nat (length (@nil string)) =? 0)%Z with true. cbv iota.
    destruct (AssetList client) as [assets err]. cbn in Hok. subst err.
    destruct (LocalAssets client) as [localAssets err]. cbn in He. by subst err.
Qed.

Lemma replace_error_queues_nothing_witness :
  replace has_content failing_client [] = ([], Some (Errorf "listing: connection refused")).
Proof.
  apply (proj1 (proj2 (replace_error_queues_nothing has_content failing_client []))).
  reflexivity.
Defined.

(** X19. A replace with named files never queues a Removal: whatever
    the lookups answer, every event it queues is an Upload of a valid
    asset. *)
Theorem replace_selective_only_uploads (IsValid : Asset → bool)
    (client : ThemeClient) (filename : string) (rest : list string) (ev : AssetEvent) :
  ev ∈ (replace IsValid client (filename :: rest)).1 →
  event_type ev = Update ∧ IsValid (event_asset ev) = true.
Proof.
  unfold replace.
  replace (Z.of_nat (length (filename :: rest)) =? 0)%Z with false
    by (symmetry; apply Z.eqb_neq; cbn [length]; lia).
  destruct (replace_named IsValid client (filename :: rest) ∅)
    as [actions [e|]] eqn:Hrun; [by intros ?%elem_of_nil|].
  cbn [fst]. intros [k Hk]%elem_of_range_values.
  destruct (replace_named_uploads IsValid client _ _ _ Hrun k ev Hk) as [H|H];
    [|done].
  by rewrite lookup_empty in H.
Qed.

Lemma replace_selective_only_uploads_witness :
  event_type (NewUploadEvent (mkAsset "b" "<content>" "")) = Update
  ∧ has_content (event_asset (NewUploadEvent (mkAsset "b" "<content>" ""))) = true.
Proof.
  apply (replace_selective_only_uploads has_content ab_bc_client "b" ["empty.liquid"]).
  vm_compute. left.
Defined.

(** ** The older replace command *)

Lemma assetList_named_flat (filenames : list string) (assets : list Asset) :
  assetList_named filenames assets
  = assets ++ ((λ filename, mkAsset filename "" "") <$> filenames).
Proof.
  revert assets. induction filenames as [|f rest IH]; intros assets; cbn.
  - by rewrite app_nil_r.
  - by rewrite IH, <- app_assoc.
Qed.

(** X20. The older [Replace] sends, for each asset in order, its Removal
    and then its Upload, and nothing else: for the assets of the remote
    listing when no filename is given and otherwise, for each named
    file, for an asset that carries the filename as its key and no
    content. *)
Theorem Replace_events (listing : list Asset) (filenames : list string) :
  Replace listing filenames
  = flat_map (λ asset, [NewRemovalEvent asset; NewUploadEvent asset])
      (match filenames with
       | [] => listing
       | _ => (λ filename, mkAsset filename "" "") <$> filenames
       end)
  ∧ length (Replace listing filenames)
    = 2 * match filenames with
          | [] => length listing
          | _ => length filenames
          end.
Proof.
  unfold Replace, assetList. rewrite removeAndUpload_flat. cbn [app].
  assert (Hlen : ∀ assets : list Asset,
            length (flat_map (λ asset, [NewRemovalEvent asset; NewUploadEvent asset])
                      assets) = 2 * length assets).
  { induction assets as [|a assets IH]; [done|]. cbn [flat_map length app].
    rewrite IH. lia. }
  rewrite Hlen. destruct filenames as [|f rest]; [done|].
  replace (Z.of_nat (length (f :: rest)) =? 0)%Z with false
    by (symmetry; apply Z.eqb_neq; cbn [length]; lia).
  rewrite assetList_named_flat. cbn [app]. by rewrite length_fmap.
Qed.

(** ** [FetchableFiles]: order and repetitions *)

Section FetchableShape.

Variable filepath_Match : string → string → bool * option error.

Lemma match_wildcards_flat wildCards assetName fetchable :
  match_wildcards filepath_Match wildCards assetName fetchable
  = fetchable
    ++ replicate (length (filter (λ w, (filepath_Match w assetName).1 = true) wildCards))
         assetName.
Proof.
  revert fetchable. induction wildCards as [|w rest IH]; intros fetchable.
  - cbn. by rewrite app_nil_r.
  - cbn [match_wildcards].
    destruct (filepath_Match w assetName) as [matched err] eqn:Hm.
    rewrite IH. destruct matched.
    + rewrite filter_cons_True by (by rewrite Hm). cbn. by rewrite <- app_assoc.
    + rewrite filter_cons_False by (by rewrite Hm). done.
Qed.

Lemma match_assets_flat wildCards assetNames fetchable :
  match_assets filepath_Match wildCards assetNames fetchable
  = fetchable
    ++ flat_map (λ a, replicate
                        (length (filter (λ w, (filepath_Match w a).1 = true) wildCards))
                        a) assetNames.
Proof.
  revert fetchable. induction assetNames as [|a rest IH]; intros fetchable.
  - cbn. by rewrite app_nil_r.
  - cbn [match_assets flat_map]. by rewrite IH, match_wildcards_flat, <- app_assoc.
Qed.

(** How often a name occurs in a list. *)
Lemma occurrences_replicate (x a : string) (n : nat) :
  length (filter (x =.) (replicate n a)) = if decide (x = a) then n else 0.
Proof.
  induction n as [|n IH]; cbn [replicate]; [by case_decide|].
  destruct (decide (x = a)) as [->|Hne].
  - rewrite filter_cons_True by done. cbn. by rewrite IH.
  - rewrite filter_cons_False by done. done.
Qed.

Lemma occurrences_flat_map (x : string) (n : string → nat) (names : list string) :
  NoDup names →
  length (filter (x =.) (flat_map (λ a, replicate (n a) a) names))
  = if decide (x ∈ names) then n x else 0.
Proof.
  induction names as [|a rest IH]; intros Hnd; [done|].
  apply NoDup_cons in Hnd as [Ha Hrest].
  cbn [flat_map]. rewrite filter_app, length_app, occurrences_replicate, (IH Hrest).
  destruct (decide (x = a)) as [->|Hne].
  - destruct (decide (a ∈ rest)) as [Hin|Hin]; [done|].
    rewrite decide_True by left. lia.
  - destruct (decide (x ∈ rest)) as [Hin|Hin].
    + rewrite decide_True by (by right). lia.
    + rewrite decide_False; [lia|]. by intros [?|?]%elem_of_cons.
Qed.

Lemma literal_names (filenames : list string) :
  Forall (λ f, strings_Contains f "*" = false) filenames →
  filter (λ f, strings_Contains f "*" = true) filenames = []
  ∧ filter (λ f, strings_Contains f "*" = false) filenames = filenames.
Proof.
  induction 1 as [|f l Hf _ [IH1 IH2]]; [done|].
  rewrite filter_cons_False by (by rewrite Hf).
  rewrite filter_cons_True by done. by rewrite IH2.
Qed.

(** X21. When none of the requested filenames contains a wildcard,
    [FetchableFiles] returns them as they were given, in order and with
    their repetitions, whether or not the remote knows them. *)
Theorem FetchableFiles_literal (m : fileManifest) (filename : string)
    (rest : list string) (env : string) :
  Forall (λ f, strings_Contains f "*" = false) (filename :: rest) →
  FetchableFiles filepath_Match m (filename :: rest) env = filename :: rest.
Proof.
  intros Hall. unfold FetchableFiles.
  replace (Z.of_nat (length (filename :: rest)) <=? 0)%Z with false
    by (symmetry; apply Z.leb_gt; cbn [length]; lia).
  rewrite sort_names_spec. cbn [app].
  destruct (literal_names (filename :: rest) Hall) as [-> ->]. done.
Qed.

(** X22. With requested filenames, a name occurs in the result of
    [FetchableFiles] as often as it is requested without a wildcard,
    plus, when the remote knows it, once for every requested pattern
    with a wildcard that matches it: a file matched by two patterns is
    returned twice. *)
Theorem FetchableFiles_occurrences (m : fileManifest) (filename : string)
    (rest : list string) (env x : string) :
  let filenames := filename :: rest in
  length (filter (x =.) (FetchableFiles filepath_Match m filenames env))
  = (length (filter (x =.) (filter (λ f, strings_Contains f "*" = false) filenames))
     + if decide (x ∈ dom (remote m))
       then length (filter (λ w, (filepath_Match w x).1 = true)
                      (filter (λ f, strings_Contains f "*" = true) filenames))
       else 0)%nat.
Proof.
  intros filenames. unfold FetchableFiles.
  replace (Z.of_nat (length filenames) <=? 0)%Z with false
    by (symmetry; apply Z.leb_gt; unfold filenames; cbn [length]; lia).
  rewrite sort_names_spec. cbn [app].
  set (wildCards := filter (λ f, strings_Contains f "*" = true) filenames).
  set (literals := filter (λ f, strings_Contains f "*" = false) filenames).
  destruct (Z.of_nat (length wildCards) >? 0)%Z eqn:Hlen.
  - rewrite match_assets_flat, filter_app, length_app.
    rewrite (occurrences_flat_map x
               (λ a, length (filter (λ w, (filepath_Match w a).1 = true) wildCards)))
      by apply NoDup_range_keys.
    destruct (decide (x ∈ range_keys (remote m))) as [Hin|Hin].
    + by rewrite decide_True by (by apply elem_of_range_keys).
    + by rewrite decide_False by (by rewrite <- elem_of_range_keys).
  - assert (wildCards = []) as ->.
    { destruct wildCards; [done|]. cbn [length] in Hlen.
      rewrite Z.gtb_ltb in Hlen. apply Z.ltb_ge in Hlen. lia. }
    rewrite filter_nil. cbn [length]. case_decide; lia.
Qed.

End FetchableShape.

Lemma FetchableFiles_literal_witness :
  FetchableFiles (λ _ _, (false, None)) stale ["b.css"; "b.css"] "dev"
  = ["b.css"; "b.css"].
Proof.
  apply FetchableFiles_literal. repeat constructor.
Defined.

(** * The configuration of an environment *)

Section ValidateFacts.

Variable strings_ToLower : string → string.
Variable strings_TrimSpace : string → string.
Variable strconv_ParseInt : string → Z * option error.
Variable os_Stat : string → env.FileInfo * option error.
Variable filepath_Clean : string → string.
Variable filepath_EvalSymlinks : string → string * option error.
Variable error_text : error → string.

Lemma length_eqb_0 (s : string) : (String.length s =? 0)%nat = true ↔ s = "".
Proof. destruct s; cbn; split; done. Qed.

Lemma substring_all (s : string) : String.substring 0 (String.length s) s = s.
Proof. induction s as [|c s IH]; cbn; [done|]. by rewrite IH. Qed.

Lemma substring_skip (p s : string) :
  String.substring (String.length p) (String.length s) (p ++ s)%string = s.
Proof. induction p as [|c p IH]; cbn; [apply substring_all|done]. Qed.

Lemma string_length_app (p s : string) :
  String.length (p ++ s)%string = String.length p + String.length s.
Proof.
  induction p as [|c p IH]; [done|].
  change (S (String.length (p ++ s)%string) = S (String.length p + String.length s)).
  by f_equal.
Qed.

Lemma strings_HasSuffix_app (p s : string) : strings_HasSuffix (p ++ s) s = true.
Proof.
  unfold strings_HasSuffix. rewrite string_length_app.
  replace (String.length p + String.length s - String.length s)
    with (String.length p) by lia.
  rewrite substring_skip, String.eqb_refl, andb_true_r.
  apply Nat.leb_le. lia.
Qed.

Let checks := env.validate_checks strings_ToLower strings_TrimSpace strconv_ParseInt
                os_Stat filepath_Clean filepath_EvalSymlinks error_text.

(** The causes that the checks of the theme, of the domain and of the
    password collect, before those of the directory. *)
Lemma validate_checks_causes (e : env.Env) :
  let themeID := strings_ToLower (strings_TrimSpace (env.ThemeID e)) in
  ∃ directory_causes,
    (checks e).2 =
      (if negb (String.eqb themeID "") && negb (String.eqb themeID "live")
       then match (strconv_ParseInt themeID).2 with
            | Some _ => ["invalid theme_id"]
            | None => []
            end
       else [])
      ++ (if (String.length (env.Domain e) =? 0)%nat then ["missing store domain"]
          else if negb (strings_HasSuffix (env.Domain e) "myshopify.com")
          then ["invalid store domain must end in '.myshopify.com'"] else [])
      ++ (if (String.length (env.Password e) =? 0)%nat then ["missing password"]
          else [])
      ++ directory_causes
    ∧ (∀ cause, cause ∈ directory_causes →
         (∃ text, cause = ("invalid project directory" ++ text)%string)
         ∨ cause = "Directory config <nil> is not a directory")
    ∧ (directory_causes = [] ↔
       (os_Stat (filepath_Clean (env.Directory e))).2 = None
       ∧ if env.ModeSymlink (os_Stat (filepath_Clean (env.Directory e))).1
         then (filepath_EvalSymlinks (filepath_Clean (env.Directory e))).2 = None
         else env.IsDir (os_Stat (filepath_Clean (env.Directory e))).1 = true).
Proof.
  intros themeID. unfold checks, env.validate_checks.
  cbn [env.with_ThemeID env.ThemeID env.Domain env.Password env.Directory].
  fold themeID.
  destruct (String.eqb themeID ""), (String.eqb themeID "live"),
    (strconv_ParseInt themeID) as [n [perr|]];
    simpl;
    destruct (String.length (env.Domain e) =? 0)%nat,
      (strings_HasSuffix (env.Domain e) "myshopify.com"),
      (String.length (env.Password e) =? 0)%nat;
    simpl;
    (destruct (os_Stat (filepath_Clean (env.Directory e))) as [fi [serr|]];
     simpl;
     [|destruct (env.ModeSymlink fi);
       [destruct (filepath_EvalSymlinks (filepath_Clean (env.Directory e)))
          as [directory [lerr|]]
       |destruct (env.IsDir fi)]]);
    simpl;
    (eexists; split; [reflexivity|]; split;
     [ intros cause Hc;
       first [ by apply elem_of_nil in Hc
             | apply list_elem_of_singleton in Hc as ->;
               first [ by right | left; eexists; reflexivity ] ]
     | split; first [ done | by intros [? ?] ] ]).
Qed.

(** X23. [validate] runs every check and reports all that fail: it
    returns nil exactly when no cause was collected; the theme id is
    reported exactly when, trimmed and lower-cased, it is neither empty
    nor [live] and does not parse as an integer; the domain is reported
    missing exactly when it is empty, and invalid exactly when it is not
    empty and does not end in [myshopify.com]; the password is reported
    exactly when it is empty. *)
Theorem validate_reports (e : env.Env) :
  let causes := (env.validate_checks strings_ToLower strings_TrimSpace
                   strconv_ParseInt os_Stat filepath_Clean filepath_EvalSymlinks
                   error_text e).2 in
  let themeID := strings_ToLower (strings_TrimSpace (env.ThemeID e)) in
  ((env.validate strings_ToLower strings_TrimSpace strconv_ParseInt os_Stat
      filepath_Clean filepath_EvalSymlinks error_text e).2 = None
   ↔ causes = [])
  ∧ ("invalid theme_id" ∈ causes ↔
     themeID ≠ "" ∧ themeID ≠ "live" ∧ is_Some (strconv_ParseInt themeID).2)
  ∧ ("missing store domain" ∈ causes ↔ env.Domain e = "")
  ∧ ("invalid store domain must end in '.myshopify.com'" ∈ causes ↔
     env.Domain e ≠ "" ∧ strings_HasSuffix (env.Domain e) "myshopify.com" = false)
  ∧ ("missing password" ∈ causes ↔ env.Password e = "").
Proof.
  intros causes themeID.
  destruct (validate_checks_causes e) as (dir & Hcauses & Hdir & _).
  fold checks in causes. fold causes themeID in Hcauses.
  assert (Hfixed : ∀ cause, cause ∈ dir →
            cause ≠ "invalid theme_id" ∧ cause ≠ "missing store domain"
            ∧ cause ≠ "invalid store domain must end in '.myshopify.com'"
            ∧ cause ≠ "missing password").
  { intros cause [[text ->]| ->]%Hdir; repeat split; intros H; discriminate H. }
  set (T := if negb (String.eqb themeID "") && negb (String.eqb themeID "live")
            then match (strconv_ParseInt themeID).2 with
                 | Some _ => ["invalid theme_id"]
                 | None => []
                 end
            else []) in Hcauses.
  set (D := if (String.length (env.Domain e) =? 0)%nat then ["missing store domain"]
            else if negb (strings_HasSuffix (env.Domain e) "myshopify.com")
            then ["invalid store domain must end in '.myshopify.com'"] else [])
    in Hcauses.
  set (P := if (String.length (env.Password e) =? 0)%nat then ["missing password"]
            else []) in Hcauses.
  assert (HT : ∀ x, x ∈ T ↔
            x = "invalid theme_id" ∧ themeID ≠ ""
            ∧ themeID ≠ "live" ∧ is_Some (strconv_ParseInt themeID).2).
  { intros x. unfold T.
    destruct (String.eqb_spec themeID "") as [He|He]; cbn [negb andb].
    { rewrite elem_of_nil. split; [done|]. by intros (_ & ? & _). }
    destruct (String.eqb_spec themeID "live") as [Hl|Hl]; cbn [negb andb].
    { rewrite elem_of_nil. split; [done|]. by intros (_ & _ & ? & _). }
    destruct (strconv_ParseInt themeID).2 as [perr|].
    - rewrite list_elem_of_singleton. split; [|by intros [? _]].
      intros ->. repeat split; first [done | by eexists].
    - rewrite elem_of_nil. split; [done|]. by intros (_ & _ & _ & [? [=]]). }
  assert (HD : ∀ x, x ∈ D ↔
            (x = "missing store domain" ∧ env.Domain e = "")
            ∨ (x = "invalid store domain must end in '.myshopify.com'"
               ∧ env.Domain e ≠ ""
               ∧ strings_HasSuffix (env.Domain e) "myshopify.com" = false)).
  { intros x. unfold D. pose proof (length_eqb_0 (env.Domain e)) as Hl.
    destruct (String.length (env.Domain e) =? 0)%nat.
    - rewrite list_elem_of_singleton. split; [intros ->; left; split; [done|by apply Hl]|].
      intros [[? _]|(_ & Hne & _)]; [done|]. destruct Hne. by apply Hl.
    - assert (env.Domain e ≠ "") by (intros H; by apply Hl in H).
      destruct (strings_HasSuffix (env.Domain e) "myshopify.com"); cbn [negb].
      + rewrite elem_of_nil. split; [done|]. intros [[_ ?]|(_ & _ & ?)]; done.
      + rewrite list_elem_of_singleton. split; [by right|].
        intros [[_ ?]|(? & _)]; done. }
  assert (HP : ∀ x, x ∈ P ↔ x = "missing password" ∧ env.Password e = "").
  { intros x. unfold P. pose proof (length_eqb_0 (env.Password e)) as Hl.
    destruct (String.length (env.Password e) =? 0)%nat.
    - rewrite list_elem_of_singleton. split; [intros ->; split; [done|by apply Hl]|].
      by intros [? _].
    - rewrite elem_of_nil. split; [done|]. intros [_ H]. by apply Hl in H. }
  split.
  - unfold env.validate. fold checks. unfold causes.
    destruct (checks e) as [e' [|cause rest]]; cbn; split; done.
  - rewrite Hcauses, !elem_of_app, !HT, !HD, !HP.
    split; [|split; [|split]]; split.
    + intros [(_ & ?)|[[[? _]|[? _]]|[[? _]|Hd]]]; try done.
      by destruct (Hfixed _ Hd) as (? & _).
    + intros ?. by left.
    + intros [(? & _)|[[[_ ?]|[? _]]|[[? _]|Hd]]]; try done.
      by destruct (Hfixed _ Hd) as (_ & ? & _).
    + intros ?. right. left. by left.
    + intros [(? & _)|[[[? _]|(_ & ? & ?)]|[[? _]|Hd]]]; try done.
      by destruct (Hfixed _ Hd) as (_ & _ & ? & _).
    + intros [? ?]. right. left. by right.
    + intros [(? & _)|[[[? _]|[? _]]|[[_ ?]|Hd]]]; try done.
      by destruct (Hfixed _ Hd) as (_ & _ & _ & ?).
    + intros ?. right. right. by left.
Qed.

(** X24. [validate] changes nothing of the environment but its theme
    id and its directory: the theme id becomes its trimmed, lower-cased
    form, or the empty string when that form is [live], so it is never
    [live] afterwards; the directory is replaced only when [os.Stat]
    succeeds and reports a symbolic link, by what
    [filepath.EvalSymlinks] returns. *)
Theorem validate_frame (e : env.Env) :
  let e' := (env.validate strings_ToLower strings_TrimSpace strconv_ParseInt os_Stat
               filepath_Clean filepath_EvalSymlinks error_text e).1 in
  let themeID := strings_ToLower (strings_TrimSpace (env.ThemeID e)) in
  let stat := os_Stat (filepath_Clean (env.Directory e)) in
  (env.Name e' = env.Name e ∧ env.Password e' = env.Password e
   ∧ env.Domain e' = env.Domain e ∧ env.IgnoredFiles e' = env.IgnoredFiles e
   ∧ env.Proxy e' = env.Proxy e ∧ env.Ignores e' = env.Ignores e
   ∧ env.Timeout e' = env.Timeout e ∧ env.ReadOnly e' = env.ReadOnly e
   ∧ env.Notify e' = env.Notify e)
  ∧ env.ThemeID e' = (if String.eqb themeID "live" then "" else themeID)
  ∧ env.ThemeID e' ≠ "live"
  ∧ env.Directory e'
    = (if bool_decide (stat.2 = None) && env.ModeSymlink stat.1
       then (filepath_EvalSymlinks (filepath_Clean (env.Directory e))).1
       else env.Directory e).
Proof.
  intros e' themeID stat.
  assert (He' : e' = (checks e).1).
  { unfold e', env.validate. fold checks.
    destruct (checks e) as [e1 errors]. by destruct (0 <? length errors)%nat. }
  rewrite He'. unfold checks, env.validate_checks.
  cbn [env.with_ThemeID env.ThemeID env.Domain env.Password env.Directory].
  fold themeID. unfold stat.
  destruct (String.eqb_spec themeID "") as [Hempty|Hempty],
    (String.eqb_spec themeID "live") as [Hlive|Hlive],
    (strconv_ParseInt themeID) as [n [perr|]];
    simpl;
    (destruct (os_Stat (filepath_Clean (env.Directory e))) as [fi [serr|]];
     simpl;
     [|destruct (env.ModeSymlink fi);
       [destruct (filepath_EvalSymlinks (filepath_Clean (env.Directory e)))
          as [directory [lerr|]]
       |destruct (env.IsDir fi)]]);
    simpl; repeat split; try done; congruence.
Qed.

(** X25. A store domain passes the check of [validate] whenever it ends
    in [myshopify.com], whatever precedes that suffix: a dot is not
    required, although the message for a rejected domain asks for one. *)
Theorem validate_domain_suffix (e : env.Env) (prefix : string) :
  env.Domain e = (prefix ++ "myshopify.com")%string →
  let causes := (env.validate_checks strings_ToLower strings_TrimSpace
                   strconv_ParseInt os_Stat filepath_Clean filepath_EvalSymlinks
                   error_text e).2 in
  ("missing store domain" ∉ causes)
  ∧ ("invalid store domain must end in '.myshopify.com'" ∉ causes).
Proof.
  intros Hdomain causes.
  destruct (validate_checks_causes e) as (dir & Hcauses & Hdir & _).
  fold checks in causes. fold causes in Hcauses.
  rewrite Hdomain, strings_HasSuffix_app, string_length_app in Hcauses.
  replace (String.length prefix + String.length "myshopify.com" =? 0)%nat
    with false in Hcauses by (symmetry; apply Nat.eqb_neq; cbn; lia).
  cbn [negb app] in Hcauses. rewrite Hcauses.
  split; intros Hin; apply elem_of_app in Hin as [Hin|Hin].
  all: try (destruct (negb _ && negb _); [destruct (strconv_ParseInt _).2|];
            first [ by apply elem_of_nil in Hin
                  | apply list_elem_of_singleton in Hin; discriminate Hin ]).
  all: apply elem_of_app in Hin as [Hin|Hin];
    [ destruct (String.length (env.Password e) =? 0)%nat;
      first [ by apply elem_of_nil in Hin
            | apply list_elem_of_singleton in Hin; discriminate Hin ]
    | apply Hdir in Hin as [[text Hin]|Hin]; discriminate Hin ].
Qed.

End ValidateFacts.

Lemma validate_domain_suffix_witness :
  "invalid store domain must end in '.myshopify.com'"
  ∉ (env.validate_checks id id (λ _, (0%Z, None))
       (λ _, (env.mkFileInfo false true, None)) id (λ path, (path, None))
       (λ _, "") undotted_env).2.
Proof.
  apply (validate_domain_suffix id id (λ _, (0%Z, None))
           (λ _, (env.mkFileInfo false true, None)) id (λ path, (path, None))
           (λ _, "") undotted_env "shop").
  reflexivity.
Defined.
